(** * DiceOdds: the sum distribution of a set of dice

    A shallow embedding of [DiceOddsLib/DiceOdds.py] and the properties
    its specification states about it.

    The file has three parts: [Py], the fragment of the Python runtime
    the program calls (exceptions, printing, strings and the character
    tables [lower], [\d] and [int] read, integers, floats,
    [range], [itertools.product], [Counter], [sorted], [max],
    [random.choice]); the functions of [DiceOdds.py], one definition per
    [def], in the order of the source; and the theorems. *)

From Stdlib Require Import ZArith List String Ascii Lia.
From Stdlib Require Import DecimalString DecimalPos DecimalFacts.
From Stdlib Require Import Floats.SpecFloat.
From stdpp Require Import base option list list_numbers gmap sorting strings.

Open Scope Z_scope.

(* ================================================================== *)
(** * Part 1: the Python runtime the program relies on                 *)
(* ================================================================== *)

Module Py.

(** ** Exceptions

    [sys.exit(code)] raises [SystemExit]; an [except ValueError] clause
    does not catch it. *)

Inductive exn : Type :=
  | ValueError (msg : string)
  | IndexError (msg : string)
  | SystemExit (code : Z).

(** The outcome of an expression that may raise. *)
Inductive result (A : Type) : Type :=
  | Ok (a : A)
  | Raise (e : exn).
Arguments Ok {A} a.
Arguments Raise {A} e.

#[global] Instance result_ret : MRet result := λ A a, Ok a.
#[global] Instance result_bind : MBind result := λ A B f m,
  match m with
  | Ok a => f a
  | Raise e => Raise e
  end.

(** ** Standard output

    What one call of [print] writes.  The text that pandas renders for
    [df.to_string(index=False, columns=cols)] is kept symbolic: pandas
    is not part of the program, and nothing below depends on the
    rendering.  [R] is the type of the rows of the frame. *)

Inductive output (R : Type) : Type :=
  | Text (s : string)
  | Table (columns : list string) (rows : list R).
Arguments Text {R} s.
Arguments Table {R} columns rows.

(** A statement: what it printed, and how it ended. *)
Definition io (R A : Type) : Type := list (output R) * result A.

#[global] Instance io_ret {R} : MRet (io R) := λ A a, ([], Ok a).
#[global] Instance io_bind {R} : MBind (io R) := λ A B f m,
  match m with
  | (out, Ok a) => let '(out', r) := f a in (out ++ out', r)
  | (out, Raise e) => (out, Raise e)
  end.

Definition print {R} (s : string) : io R unit := ([Text s], Ok tt).
Definition print_table {R} (columns : list string) (rows : list R) : io R unit :=
  ([Table columns rows], Ok tt).
Definition raise {R A} (e : exn) : io R A := ([], Raise e).
Definition sys_exit {R A} (code : Z) : io R A := raise (SystemExit code).
Definition lift {R A} (r : result A) : io R A := ([], r).

(** ** Strings

    A [str] is held as the bytes of its UTF-8 encoding, the form in
    which an argument comes from the command line and in which a line
    goes to standard output; [code_points] reads its characters. *)

Definition newline : string := String (ascii_of_nat 10) EmptyString.

(** [s * n]: [n] copies of [s], none when [n <= 0]. *)
Definition str_mul (s : string) (n : Z) : string :=
  String.concat "" (replicate (Z.to_nat n) s).

(** [str(n)] for an integer.  CPython refuses to write an integer of
    more than 4300 digits; the integers the program writes are sums
    and counts of rolls it has enumerated one by one. *)
Definition str (n : Z) : string := NilZero.string_of_int (Z.to_int n).

(** [s.startswith(p)]. *)
Definition startswith (s p : string) : bool := String.prefix p s.

(** [x in l] for a list of strings. *)
Definition contains (x : string) (l : list string) : bool := bool_decide (x ∈ l).

(** *** Decoding *)

Definition byte (a : ascii) : Z := Z.of_nat (nat_of_ascii a).

(** The bytes [0x80] to [0xBF] continue a sequence; each brings six bits. *)
Definition continues (a : ascii) : bool := (0x80 <=? byte a) && (byte a <=? 0xBF).
Definition six_bits (a : ascii) : Z := byte a - 0x80.

(** The well-formed sequence at the start of [s], if there is one: its
    code point and its number of bytes.  A sequence is of one to four
    bytes, the shortest that holds its code point; the surrogates
    U+D800 to U+DFFF and what lies beyond U+10FFFF have none. *)
Definition utf8_head (s : string) : option (Z * nat) :=
  match s with
  | EmptyString => None
  | String a0 s1 =>
      let b0 := byte a0 in
      if b0 <? 0x80 then Some (b0, 1%nat)
      else if b0 <? 0xC0 then None
      else if b0 <? 0xE0 then
        match s1 with
        | String a1 _ =>
            let c := (b0 - 0xC0) * 0x40 + six_bits a1 in
            if continues a1 && (0x80 <=? c) then Some (c, 2%nat) else None
        | _ => None
        end
      else if b0 <? 0xF0 then
        match s1 with
        | String a1 (String a2 _) =>
            let c := ((b0 - 0xE0) * 0x40 + six_bits a1) * 0x40 + six_bits a2 in
            if continues a1 && continues a2 && (0x800 <=? c)
               && negb ((0xD800 <=? c) && (c <=? 0xDFFF))
            then Some (c, 3%nat) else None
        | _ => None
        end
      else if b0 <? 0xF8 then
        match s1 with
        | String a1 (String a2 (String a3 _)) =>
            let c := (((b0 - 0xF0) * 0x40 + six_bits a1) * 0x40 + six_bits a2) * 0x40
                     + six_bits a3 in
            if continues a1 && continues a2 && continues a3
               && (0x10000 <=? c) && (c <=? 0x10FFFF)
            then Some (c, 4%nat) else None
        | _ => None
        end
      else None
  end.

(** The characters of [s], with [skip] bytes of a sequence already
    read still to pass.  A byte that belongs to no well-formed sequence
    stands for the lone surrogate U+DC80 to U+DCFF that Python puts in
    its place when it decodes the command line. *)
Fixpoint code_points_skip (skip : nat) (s : string) : list Z :=
  match s with
  | EmptyString => []
  | String a s1 =>
      match skip with
      | S k => code_points_skip k s1
      | O =>
          match utf8_head s with
          | Some (c, n) => c :: code_points_skip (pred n) s1
          | None => (0xDC00 + byte a) :: code_points_skip 0 s1
          end
      end
  end.

Definition code_points (s : string) : list Z := code_points_skip 0 s.

(** [len(s)]: the number of characters. *)
Definition len (s : string) : Z := Z.of_nat (length (code_points s)).

(** ** Characters

    The tables are those of Unicode 14.0, the version CPython 3.11
    carries. *)

(** *** Decimal digits

    The characters of the general category Nd, which the class [\d] of
    a [str] pattern matches and [int] reads.  The ten digits of a
    script follow one another from its zero; [decimal_zeros] lists the
    zeros. *)
Definition decimal_zeros : list Z :=
  [
    0x30; 0x660; 0x6F0; 0x7C0; 0x966; 0x9E6; 0xA66; 0xAE6; 0xB66; 0xBE6;
    0xC66; 0xCE6; 0xD66; 0xDE6; 0xE50; 0xED0; 0xF20; 0x1040; 0x1090; 0x17E0;
    0x1810; 0x1946; 0x19D0; 0x1A80; 0x1A90; 0x1B50; 0x1BB0; 0x1C40; 0x1C50;
    0xA620; 0xA8D0; 0xA900; 0xA9D0; 0xA9F0; 0xAA50; 0xABF0; 0xFF10; 0x104A0;
    0x10D30; 0x11066; 0x110F0; 0x11136; 0x111D0; 0x112F0; 0x11450; 0x114D0;
    0x11650; 0x116C0; 0x11730; 0x118E0; 0x11950; 0x11C50; 0x11D50; 0x11DA0;
    0x16A60; 0x16AC0; 0x16B50; 0x1D7CE; 0x1D7D8; 0x1D7E2; 0x1D7EC; 0x1D7F6;
    0x1E140; 0x1E2F0; 0x1E950; 0x1FBF0
  ].

(** The value of a decimal digit, [None] for another character. *)
Definition decimal (c : Z) : option Z :=
  (λ zero, c - zero) <$> find (λ zero, (zero <=? c) && (c <=? zero + 9)) decimal_zeros.

(** The class [\d]. *)
Definition is_digit (c : Z) : bool :=
  match decimal c with
  | Some _ => true
  | None => false
  end.

(** *** Lower case

    [lowercase_runs] lists the characters whose lower case is one
    other character: every [step]-th character from [first] to [last]
    becomes the character [delta] further. *)
Definition lowercase_runs : list (Z * Z * Z * Z) :=
  [
    (0x41, 0x5A, 1, 32); (0xC0, 0xD6, 1, 32); (0xD8, 0xDE, 1, 32);
    (0x100, 0x12E, 2, 1); (0x132, 0x136, 2, 1); (0x139, 0x147, 2, 1);
    (0x14A, 0x176, 2, 1); (0x178, 0x178, 1, (-121)); (0x179, 0x17D, 2, 1);
    (0x181, 0x181, 1, 210); (0x182, 0x184, 2, 1); (0x186, 0x186, 1, 206);
    (0x187, 0x187, 1, 1); (0x189, 0x18A, 1, 205); (0x18B, 0x18B, 1, 1);
    (0x18E, 0x18E, 1, 79); (0x18F, 0x18F, 1, 202); (0x190, 0x190, 1, 203);
    (0x191, 0x191, 1, 1); (0x193, 0x193, 1, 205); (0x194, 0x194, 1, 207);
    (0x196, 0x196, 1, 211); (0x197, 0x197, 1, 209); (0x198, 0x198, 1, 1);
    (0x19C, 0x19C, 1, 211); (0x19D, 0x19D, 1, 213); (0x19F, 0x19F, 1, 214);
    (0x1A0, 0x1A4, 2, 1); (0x1A6, 0x1A6, 1, 218); (0x1A7, 0x1A7, 1, 1);
    (0x1A9, 0x1A9, 1, 218); (0x1AC, 0x1AC, 1, 1); (0x1AE, 0x1AE, 1, 218);
    (0x1AF, 0x1AF, 1, 1); (0x1B1, 0x1B2, 1, 217); (0x1B3, 0x1B5, 2, 1);
    (0x1B7, 0x1B7, 1, 219); (0x1B8, 0x1B8, 1, 1); (0x1BC, 0x1BC, 1, 1);
    (0x1C4, 0x1C4, 1, 2); (0x1C5, 0x1C5, 1, 1); (0x1C7, 0x1C7, 1, 2);
    (0x1C8, 0x1C8, 1, 1); (0x1CA, 0x1CA, 1, 2); (0x1CB, 0x1DB, 2, 1);
    (0x1DE, 0x1EE, 2, 1); (0x1F1, 0x1F1, 1, 2); (0x1F2, 0x1F4, 2, 1);
    (0x1F6, 0x1F6, 1, (-97)); (0x1F7, 0x1F7, 1, (-56));
    (0x1F8, 0x21E, 2, 1); (0x220, 0x220, 1, (-130)); (0x222, 0x232, 2, 1);
    (0x23A, 0x23A, 1, 10795); (0x23B, 0x23B, 1, 1);
    (0x23D, 0x23D, 1, (-163)); (0x23E, 0x23E, 1, 10792);
    (0x241, 0x241, 1, 1); (0x243, 0x243, 1, (-195)); (0x244, 0x244, 1, 69);
    (0x245, 0x245, 1, 71); (0x246, 0x24E, 2, 1); (0x370, 0x372, 2, 1);
    (0x376, 0x376, 1, 1); (0x37F, 0x37F, 1, 116); (0x386, 0x386, 1, 38);
    (0x388, 0x38A, 1, 37); (0x38C, 0x38C, 1, 64); (0x38E, 0x38F, 1, 63);
    (0x391, 0x3A1, 1, 32); (0x3A4, 0x3AB, 1, 32); (0x3CF, 0x3CF, 1, 8);
    (0x3D8, 0x3EE, 2, 1); (0x3F4, 0x3F4, 1, (-60)); (0x3F7, 0x3F7, 1, 1);
    (0x3F9, 0x3F9, 1, (-7)); (0x3FA, 0x3FA, 1, 1);
    (0x3FD, 0x3FF, 1, (-130)); (0x400, 0x40F, 1, 80); (0x410, 0x42F, 1, 32);
    (0x460, 0x480, 2, 1); (0x48A, 0x4BE, 2, 1); (0x4C0, 0x4C0, 1, 15);
    (0x4C1, 0x4CD, 2, 1); (0x4D0, 0x52E, 2, 1); (0x531, 0x556, 1, 48);
    (0x10A0, 0x10C5, 1, 7264); (0x10C7, 0x10C7, 1, 7264);
    (0x10CD, 0x10CD, 1, 7264); (0x13A0, 0x13EF, 1, 38864);
    (0x13F0, 0x13F5, 1, 8); (0x1C90, 0x1CBA, 1, (-3008));
    (0x1CBD, 0x1CBF, 1, (-3008)); (0x1E00, 0x1E94, 2, 1);
    (0x1E9E, 0x1E9E, 1, (-7615)); (0x1EA0, 0x1EFE, 2, 1);
    (0x1F08, 0x1F0F, 1, (-8)); (0x1F18, 0x1F1D, 1, (-8));
    (0x1F28, 0x1F2F, 1, (-8)); (0x1F38, 0x1F3F, 1, (-8));
    (0x1F48, 0x1F4D, 1, (-8)); (0x1F59, 0x1F5F, 2, (-8));
    (0x1F68, 0x1F6F, 1, (-8)); (0x1F88, 0x1F8F, 1, (-8));
    (0x1F98, 0x1F9F, 1, (-8)); (0x1FA8, 0x1FAF, 1, (-8));
    (0x1FB8, 0x1FB9, 1, (-8)); (0x1FBA, 0x1FBB, 1, (-74));
    (0x1FBC, 0x1FBC, 1, (-9)); (0x1FC8, 0x1FCB, 1, (-86));
    (0x1FCC, 0x1FCC, 1, (-9)); (0x1FD8, 0x1FD9, 1, (-8));
    (0x1FDA, 0x1FDB, 1, (-100)); (0x1FE8, 0x1FE9, 1, (-8));
    (0x1FEA, 0x1FEB, 1, (-112)); (0x1FEC, 0x1FEC, 1, (-7));
    (0x1FF8, 0x1FF9, 1, (-128)); (0x1FFA, 0x1FFB, 1, (-126));
    (0x1FFC, 0x1FFC, 1, (-9)); (0x2126, 0x2126, 1, (-7517));
    (0x212A, 0x212A, 1, (-8383)); (0x212B, 0x212B, 1, (-8262));
    (0x2132, 0x2132, 1, 28); (0x2160, 0x216F, 1, 16);
    (0x2183, 0x2183, 1, 1); (0x24B6, 0x24CF, 1, 26);
    (0x2C00, 0x2C2F, 1, 48); (0x2C60, 0x2C60, 1, 1);
    (0x2C62, 0x2C62, 1, (-10743)); (0x2C63, 0x2C63, 1, (-3814));
    (0x2C64, 0x2C64, 1, (-10727)); (0x2C67, 0x2C6B, 2, 1);
    (0x2C6D, 0x2C6D, 1, (-10780)); (0x2C6E, 0x2C6E, 1, (-10749));
    (0x2C6F, 0x2C6F, 1, (-10783)); (0x2C70, 0x2C70, 1, (-10782));
    (0x2C72, 0x2C72, 1, 1); (0x2C75, 0x2C75, 1, 1);
    (0x2C7E, 0x2C7F, 1, (-10815)); (0x2C80, 0x2CE2, 2, 1);
    (0x2CEB, 0x2CED, 2, 1); (0x2CF2, 0x2CF2, 1, 1); (0xA640, 0xA66C, 2, 1);
    (0xA680, 0xA69A, 2, 1); (0xA722, 0xA72E, 2, 1); (0xA732, 0xA76E, 2, 1);
    (0xA779, 0xA77B, 2, 1); (0xA77D, 0xA77D, 1, (-35332));
    (0xA77E, 0xA786, 2, 1); (0xA78B, 0xA78B, 1, 1);
    (0xA78D, 0xA78D, 1, (-42280)); (0xA790, 0xA792, 2, 1);
    (0xA796, 0xA7A8, 2, 1); (0xA7AA, 0xA7AA, 1, (-42308));
    (0xA7AB, 0xA7AB, 1, (-42319)); (0xA7AC, 0xA7AC, 1, (-42315));
    (0xA7AD, 0xA7AD, 1, (-42305)); (0xA7AE, 0xA7AE, 1, (-42308));
    (0xA7B0, 0xA7B0, 1, (-42258)); (0xA7B1, 0xA7B1, 1, (-42282));
    (0xA7B2, 0xA7B2, 1, (-42261)); (0xA7B3, 0xA7B3, 1, 928);
    (0xA7B4, 0xA7C2, 2, 1); (0xA7C4, 0xA7C4, 1, (-48));
    (0xA7C5, 0xA7C5, 1, (-42307)); (0xA7C6, 0xA7C6, 1, (-35384));
    (0xA7C7, 0xA7C9, 2, 1); (0xA7D0, 0xA7D0, 1, 1); (0xA7D6, 0xA7D8, 2, 1);
    (0xA7F5, 0xA7F5, 1, 1); (0xFF21, 0xFF3A, 1, 32);
    (0x10400, 0x10427, 1, 40); (0x104B0, 0x104D3, 1, 40);
    (0x10570, 0x1057A, 1, 39); (0x1057C, 0x1058A, 1, 39);
    (0x1058C, 0x10592, 1, 39); (0x10594, 0x10595, 1, 39);
    (0x10C80, 0x10CB2, 1, 64); (0x118A0, 0x118BF, 1, 32);
    (0x16E40, 0x16E5F, 1, 32); (0x1E900, 0x1E921, 1, 34)
  ].

Definition in_run (c : Z) (run : Z * Z * Z * Z) : bool :=
  let '(first, last, step, _) := run in
  (first <=? c) && (c <=? last) && ((c - first) mod step =? 0).

(** The lower case of one character out of context.  The capital I
    with a dot above, U+0130, becomes two characters. *)
Definition to_lower_full (c : Z) : list Z :=
  if c =? 0x130 then [0x69; 0x307]
  else
    match find (in_run c) lowercase_runs with
    | Some (_, _, _, delta) => [c + delta]
    | None => [c]
    end.

(** The characters a case mapping looks through, and the characters
    that have a case. *)
Definition case_ignorable_runs : list (Z * Z) :=
  [
    (0x27, 0x27); (0x2E, 0x2E); (0x3A, 0x3A); (0x5E, 0x5E); (0x60, 0x60);
    (0xA8, 0xA8); (0xAD, 0xAD); (0xAF, 0xAF); (0xB4, 0xB4); (0xB7, 0xB8);
    (0x2B0, 0x36F); (0x374, 0x375); (0x37A, 0x37A); (0x384, 0x385);
    (0x387, 0x387); (0x483, 0x489); (0x559, 0x559); (0x55F, 0x55F);
    (0x591, 0x5BD); (0x5BF, 0x5BF); (0x5C1, 0x5C2); (0x5C4, 0x5C5);
    (0x5C7, 0x5C7); (0x5F4, 0x5F4); (0x600, 0x605); (0x610, 0x61A);
    (0x61C, 0x61C); (0x640, 0x640); (0x64B, 0x65F); (0x670, 0x670);
    (0x6D6, 0x6DD); (0x6DF, 0x6E8); (0x6EA, 0x6ED); (0x70F, 0x70F);
    (0x711, 0x711); (0x730, 0x74A); (0x7A6, 0x7B0); (0x7EB, 0x7F5);
    (0x7FA, 0x7FA); (0x7FD, 0x7FD); (0x816, 0x82D); (0x859, 0x85B);
    (0x888, 0x888); (0x890, 0x891); (0x898, 0x89F); (0x8C9, 0x902);
    (0x93A, 0x93A); (0x93C, 0x93C); (0x941, 0x948); (0x94D, 0x94D);
    (0x951, 0x957); (0x962, 0x963); (0x971, 0x971); (0x981, 0x981);
    (0x9BC, 0x9BC); (0x9C1, 0x9C4); (0x9CD, 0x9CD); (0x9E2, 0x9E3);
    (0x9FE, 0x9FE); (0xA01, 0xA02); (0xA3C, 0xA3C); (0xA41, 0xA42);
    (0xA47, 0xA48); (0xA4B, 0xA4D); (0xA51, 0xA51); (0xA70, 0xA71);
    (0xA75, 0xA75); (0xA81, 0xA82); (0xABC, 0xABC); (0xAC1, 0xAC5);
    (0xAC7, 0xAC8); (0xACD, 0xACD); (0xAE2, 0xAE3); (0xAFA, 0xAFF);
    (0xB01, 0xB01); (0xB3C, 0xB3C); (0xB3F, 0xB3F); (0xB41, 0xB44);
    (0xB4D, 0xB4D); (0xB55, 0xB56); (0xB62, 0xB63); (0xB82, 0xB82);
    (0xBC0, 0xBC0); (0xBCD, 0xBCD); (0xC00, 0xC00); (0xC04, 0xC04);
    (0xC3C, 0xC3C); (0xC3E, 0xC40); (0xC46, 0xC48); (0xC4A, 0xC4D);
    (0xC55, 0xC56); (0xC62, 0xC63); (0xC81, 0xC81); (0xCBC, 0xCBC);
    (0xCBF, 0xCBF); (0xCC6, 0xCC6); (0xCCC, 0xCCD); (0xCE2, 0xCE3);
    (0xD00, 0xD01); (0xD3B, 0xD3C); (0xD41, 0xD44); (0xD4D, 0xD4D);
    (0xD62, 0xD63); (0xD81, 0xD81); (0xDCA, 0xDCA); (0xDD2, 0xDD4);
    (0xDD6, 0xDD6); (0xE31, 0xE31); (0xE34, 0xE3A); (0xE46, 0xE4E);
    (0xEB1, 0xEB1); (0xEB4, 0xEBC); (0xEC6, 0xEC6); (0xEC8, 0xECD);
    (0xF18, 0xF19); (0xF35, 0xF35); (0xF37, 0xF37); (0xF39, 0xF39);
    (0xF71, 0xF7E); (0xF80, 0xF84); (0xF86, 0xF87); (0xF8D, 0xF97);
    (0xF99, 0xFBC); (0xFC6, 0xFC6); (0x102D, 0x1030); (0x1032, 0x1037);
    (0x1039, 0x103A); (0x103D, 0x103E); (0x1058, 0x1059); (0x105E, 0x1060);
    (0x1071, 0x1074); (0x1082, 0x1082); (0x1085, 0x1086); (0x108D, 0x108D);
    (0x109D, 0x109D); (0x10FC, 0x10FC); (0x135D, 0x135F); (0x1712, 0x1714);
    (0x1732, 0x1733); (0x1752, 0x1753); (0x1772, 0x1773); (0x17B4, 0x17B5);
    (0x17B7, 0x17BD); (0x17C6, 0x17C6); (0x17C9, 0x17D3); (0x17D7, 0x17D7);
    (0x17DD, 0x17DD); (0x180B, 0x180F); (0x1843, 0x1843); (0x1885, 0x1886);
    (0x18A9, 0x18A9); (0x1920, 0x1922); (0x1927, 0x1928); (0x1932, 0x1932);
    (0x1939, 0x193B); (0x1A17, 0x1A18); (0x1A1B, 0x1A1B); (0x1A56, 0x1A56);
    (0x1A58, 0x1A5E); (0x1A60, 0x1A60); (0x1A62, 0x1A62); (0x1A65, 0x1A6C);
    (0x1A73, 0x1A7C); (0x1A7F, 0x1A7F); (0x1AA7, 0x1AA7); (0x1AB0, 0x1ACE);
    (0x1B00, 0x1B03); (0x1B34, 0x1B34); (0x1B36, 0x1B3A); (0x1B3C, 0x1B3C);
    (0x1B42, 0x1B42); (0x1B6B, 0x1B73); (0x1B80, 0x1B81); (0x1BA2, 0x1BA5);
    (0x1BA8, 0x1BA9); (0x1BAB, 0x1BAD); (0x1BE6, 0x1BE6); (0x1BE8, 0x1BE9);
    (0x1BED, 0x1BED); (0x1BEF, 0x1BF1); (0x1C2C, 0x1C33); (0x1C36, 0x1C37);
    (0x1C78, 0x1C7D); (0x1CD0, 0x1CD2); (0x1CD4, 0x1CE0); (0x1CE2, 0x1CE8);
    (0x1CED, 0x1CED); (0x1CF4, 0x1CF4); (0x1CF8, 0x1CF9); (0x1D2C, 0x1D6A);
    (0x1D78, 0x1D78); (0x1D9B, 0x1DFF); (0x1FBD, 0x1FBD); (0x1FBF, 0x1FC1);
    (0x1FCD, 0x1FCF); (0x1FDD, 0x1FDF); (0x1FED, 0x1FEF); (0x1FFD, 0x1FFE);
    (0x200B, 0x200F); (0x2018, 0x2019); (0x2024, 0x2024); (0x2027, 0x2027);
    (0x202A, 0x202E); (0x2060, 0x2064); (0x2066, 0x206F); (0x2071, 0x2071);
    (0x207F, 0x207F); (0x2090, 0x209C); (0x20D0, 0x20F0); (0x2C7C, 0x2C7D);
    (0x2CEF, 0x2CF1); (0x2D6F, 0x2D6F); (0x2D7F, 0x2D7F); (0x2DE0, 0x2DFF);
    (0x2E2F, 0x2E2F); (0x3005, 0x3005); (0x302A, 0x302D); (0x3031, 0x3035);
    (0x303B, 0x303B); (0x3099, 0x309E); (0x30FC, 0x30FE); (0xA015, 0xA015);
    (0xA4F8, 0xA4FD); (0xA60C, 0xA60C); (0xA66F, 0xA672); (0xA674, 0xA67D);
    (0xA67F, 0xA67F); (0xA69C, 0xA69F); (0xA6F0, 0xA6F1); (0xA700, 0xA721);
    (0xA770, 0xA770); (0xA788, 0xA78A); (0xA7F2, 0xA7F4); (0xA7F8, 0xA7F9);
    (0xA802, 0xA802); (0xA806, 0xA806); (0xA80B, 0xA80B); (0xA825, 0xA826);
    (0xA82C, 0xA82C); (0xA8C4, 0xA8C5); (0xA8E0, 0xA8F1); (0xA8FF, 0xA8FF);
    (0xA926, 0xA92D); (0xA947, 0xA951); (0xA980, 0xA982); (0xA9B3, 0xA9B3);
    (0xA9B6, 0xA9B9); (0xA9BC, 0xA9BD); (0xA9CF, 0xA9CF); (0xA9E5, 0xA9E6);
    (0xAA29, 0xAA2E); (0xAA31, 0xAA32); (0xAA35, 0xAA36); (0xAA43, 0xAA43);
    (0xAA4C, 0xAA4C); (0xAA70, 0xAA70); (0xAA7C, 0xAA7C); (0xAAB0, 0xAAB0);
    (0xAAB2, 0xAAB4); (0xAAB7, 0xAAB8); (0xAABE, 0xAABF); (0xAAC1, 0xAAC1);
    (0xAADD, 0xAADD); (0xAAEC, 0xAAED); (0xAAF3, 0xAAF4); (0xAAF6, 0xAAF6);
    (0xAB5B, 0xAB5F); (0xAB69, 0xAB6B); (0xABE5, 0xABE5); (0xABE8, 0xABE8);
    (0xABED, 0xABED); (0xFB1E, 0xFB1E); (0xFBB2, 0xFBC2); (0xFE00, 0xFE0F);
    (0xFE13, 0xFE13); (0xFE20, 0xFE2F); (0xFE52, 0xFE52); (0xFE55, 0xFE55);
    (0xFEFF, 0xFEFF); (0xFF07, 0xFF07); (0xFF0E, 0xFF0E); (0xFF1A, 0xFF1A);
    (0xFF3E, 0xFF3E); (0xFF40, 0xFF40); (0xFF70, 0xFF70); (0xFF9E, 0xFF9F);
    (0xFFE3, 0xFFE3); (0xFFF9, 0xFFFB); (0x101FD, 0x101FD);
    (0x102E0, 0x102E0); (0x10376, 0x1037A); (0x10780, 0x10785);
    (0x10787, 0x107B0); (0x107B2, 0x107BA); (0x10A01, 0x10A03);
    (0x10A05, 0x10A06); (0x10A0C, 0x10A0F); (0x10A38, 0x10A3A);
    (0x10A3F, 0x10A3F); (0x10AE5, 0x10AE6); (0x10D24, 0x10D27);
    (0x10EAB, 0x10EAC); (0x10F46, 0x10F50); (0x10F82, 0x10F85);
    (0x11001, 0x11001); (0x11038, 0x11046); (0x11070, 0x11070);
    (0x11073, 0x11074); (0x1107F, 0x11081); (0x110B3, 0x110B6);
    (0x110B9, 0x110BA); (0x110BD, 0x110BD); (0x110C2, 0x110C2);
    (0x110CD, 0x110CD); (0x11100, 0x11102); (0x11127, 0x1112B);
    (0x1112D, 0x11134); (0x11173, 0x11173); (0x11180, 0x11181);
    (0x111B6, 0x111BE); (0x111C9, 0x111CC); (0x111CF, 0x111CF);
    (0x1122F, 0x11231); (0x11234, 0x11234); (0x11236, 0x11237);
    (0x1123E, 0x1123E); (0x112DF, 0x112DF); (0x112E3, 0x112EA);
    (0x11300, 0x11301); (0x1133B, 0x1133C); (0x11340, 0x11340);
    (0x11366, 0x1136C); (0x11370, 0x11374); (0x11438, 0x1143F);
    (0x11442, 0x11444); (0x11446, 0x11446); (0x1145E, 0x1145E);
    (0x114B3, 0x114B8); (0x114BA, 0x114BA); (0x114BF, 0x114C0);
    (0x114C2, 0x114C3); (0x115B2, 0x115B5); (0x115BC, 0x115BD);
    (0x115BF, 0x115C0); (0x115DC, 0x115DD); (0x11633, 0x1163A);
    (0x1163D, 0x1163D); (0x1163F, 0x11640); (0x116AB, 0x116AB);
    (0x116AD, 0x116AD); (0x116B0, 0x116B5); (0x116B7, 0x116B7);
    (0x1171D, 0x1171F); (0x11722, 0x11725); (0x11727, 0x1172B);
    (0x1182F, 0x11837); (0x11839, 0x1183A); (0x1193B, 0x1193C);
    (0x1193E, 0x1193E); (0x11943, 0x11943); (0x119D4, 0x119D7);
    (0x119DA, 0x119DB); (0x119E0, 0x119E0); (0x11A01, 0x11A0A);
    (0x11A33, 0x11A38); (0x11A3B, 0x11A3E); (0x11A47, 0x11A47);
    (0x11A51, 0x11A56); (0x11A59, 0x11A5B); (0x11A8A, 0x11A96);
    (0x11A98, 0x11A99); (0x11C30, 0x11C36); (0x11C38, 0x11C3D);
    (0x11C3F, 0x11C3F); (0x11C92, 0x11CA7); (0x11CAA, 0x11CB0);
    (0x11CB2, 0x11CB3); (0x11CB5, 0x11CB6); (0x11D31, 0x11D36);
    (0x11D3A, 0x11D3A); (0x11D3C, 0x11D3D); (0x11D3F, 0x11D45);
    (0x11D47, 0x11D47); (0x11D90, 0x11D91); (0x11D95, 0x11D95);
    (0x11D97, 0x11D97); (0x11EF3, 0x11EF4); (0x13430, 0x13438);
    (0x16AF0, 0x16AF4); (0x16B30, 0x16B36); (0x16B40, 0x16B43);
    (0x16F4F, 0x16F4F); (0x16F8F, 0x16F9F); (0x16FE0, 0x16FE1);
    (0x16FE3, 0x16FE4); (0x1AFF0, 0x1AFF3); (0x1AFF5, 0x1AFFB);
    (0x1AFFD, 0x1AFFE); (0x1BC9D, 0x1BC9E); (0x1BCA0, 0x1BCA3);
    (0x1CF00, 0x1CF2D); (0x1CF30, 0x1CF46); (0x1D167, 0x1D169);
    (0x1D173, 0x1D182); (0x1D185, 0x1D18B); (0x1D1AA, 0x1D1AD);
    (0x1D242, 0x1D244); (0x1DA00, 0x1DA36); (0x1DA3B, 0x1DA6C);
    (0x1DA75, 0x1DA75); (0x1DA84, 0x1DA84); (0x1DA9B, 0x1DA9F);
    (0x1DAA1, 0x1DAAF); (0x1E000, 0x1E006); (0x1E008, 0x1E018);
    (0x1E01B, 0x1E021); (0x1E023, 0x1E024); (0x1E026, 0x1E02A);
    (0x1E130, 0x1E13D); (0x1E2AE, 0x1E2AE); (0x1E2EC, 0x1E2EF);
    (0x1E8D0, 0x1E8D6); (0x1E944, 0x1E94B); (0x1F3FB, 0x1F3FF);
    (0xE0001, 0xE0001); (0xE0020, 0xE007F); (0xE0100, 0xE01EF)
  ].

Definition cased_runs : list (Z * Z) :=
  [
    (0x41, 0x5A); (0x61, 0x7A); (0xAA, 0xAA); (0xB5, 0xB5); (0xBA, 0xBA);
    (0xC0, 0xD6); (0xD8, 0xF6); (0xF8, 0x1BA); (0x1BC, 0x1BF);
    (0x1C4, 0x293); (0x295, 0x2B8); (0x2C0, 0x2C1); (0x2E0, 0x2E4);
    (0x345, 0x345); (0x370, 0x373); (0x376, 0x377); (0x37A, 0x37D);
    (0x37F, 0x37F); (0x386, 0x386); (0x388, 0x38A); (0x38C, 0x38C);
    (0x38E, 0x3A1); (0x3A3, 0x3F5); (0x3F7, 0x481); (0x48A, 0x52F);
    (0x531, 0x556); (0x560, 0x588); (0x10A0, 0x10C5); (0x10C7, 0x10C7);
    (0x10CD, 0x10CD); (0x10D0, 0x10FA); (0x10FD, 0x10FF); (0x13A0, 0x13F5);
    (0x13F8, 0x13FD); (0x1C80, 0x1C88); (0x1C90, 0x1CBA); (0x1CBD, 0x1CBF);
    (0x1D00, 0x1DBF); (0x1E00, 0x1F15); (0x1F18, 0x1F1D); (0x1F20, 0x1F45);
    (0x1F48, 0x1F4D); (0x1F50, 0x1F57); (0x1F59, 0x1F59); (0x1F5B, 0x1F5B);
    (0x1F5D, 0x1F5D); (0x1F5F, 0x1F7D); (0x1F80, 0x1FB4); (0x1FB6, 0x1FBC);
    (0x1FBE, 0x1FBE); (0x1FC2, 0x1FC4); (0x1FC6, 0x1FCC); (0x1FD0, 0x1FD3);
    (0x1FD6, 0x1FDB); (0x1FE0, 0x1FEC); (0x1FF2, 0x1FF4); (0x1FF6, 0x1FFC);
    (0x2071, 0x2071); (0x207F, 0x207F); (0x2090, 0x209C); (0x2102, 0x2102);
    (0x2107, 0x2107); (0x210A, 0x2113); (0x2115, 0x2115); (0x2119, 0x211D);
    (0x2124, 0x2124); (0x2126, 0x2126); (0x2128, 0x2128); (0x212A, 0x212D);
    (0x212F, 0x2134); (0x2139, 0x2139); (0x213C, 0x213F); (0x2145, 0x2149);
    (0x214E, 0x214E); (0x2160, 0x217F); (0x2183, 0x2184); (0x24B6, 0x24E9);
    (0x2C00, 0x2CE4); (0x2CEB, 0x2CEE); (0x2CF2, 0x2CF3); (0x2D00, 0x2D25);
    (0x2D27, 0x2D27); (0x2D2D, 0x2D2D); (0xA640, 0xA66D); (0xA680, 0xA69D);
    (0xA722, 0xA787); (0xA78B, 0xA78E); (0xA790, 0xA7CA); (0xA7D0, 0xA7D1);
    (0xA7D3, 0xA7D3); (0xA7D5, 0xA7D9); (0xA7F5, 0xA7F6); (0xA7F8, 0xA7FA);
    (0xAB30, 0xAB5A); (0xAB5C, 0xAB68); (0xAB70, 0xABBF); (0xFB00, 0xFB06);
    (0xFB13, 0xFB17); (0xFF21, 0xFF3A); (0xFF41, 0xFF5A);
    (0x10400, 0x1044F); (0x104B0, 0x104D3); (0x104D8, 0x104FB);
    (0x10570, 0x1057A); (0x1057C, 0x1058A); (0x1058C, 0x10592);
    (0x10594, 0x10595); (0x10597, 0x105A1); (0x105A3, 0x105B1);
    (0x105B3, 0x105B9); (0x105BB, 0x105BC); (0x10780, 0x10780);
    (0x10783, 0x10785); (0x10787, 0x107B0); (0x107B2, 0x107BA);
    (0x10C80, 0x10CB2); (0x10CC0, 0x10CF2); (0x118A0, 0x118DF);
    (0x16E40, 0x16E7F); (0x1D400, 0x1D454); (0x1D456, 0x1D49C);
    (0x1D49E, 0x1D49F); (0x1D4A2, 0x1D4A2); (0x1D4A5, 0x1D4A6);
    (0x1D4A9, 0x1D4AC); (0x1D4AE, 0x1D4B9); (0x1D4BB, 0x1D4BB);
    (0x1D4BD, 0x1D4C3); (0x1D4C5, 0x1D505); (0x1D507, 0x1D50A);
    (0x1D50D, 0x1D514); (0x1D516, 0x1D51C); (0x1D51E, 0x1D539);
    (0x1D53B, 0x1D53E); (0x1D540, 0x1D544); (0x1D546, 0x1D546);
    (0x1D54A, 0x1D550); (0x1D552, 0x1D6A5); (0x1D6A8, 0x1D6C0);
    (0x1D6C2, 0x1D6DA); (0x1D6DC, 0x1D6FA); (0x1D6FC, 0x1D714);
    (0x1D716, 0x1D734); (0x1D736, 0x1D74E); (0x1D750, 0x1D76E);
    (0x1D770, 0x1D788); (0x1D78A, 0x1D7A8); (0x1D7AA, 0x1D7C2);
    (0x1D7C4, 0x1D7CB); (0x1DF00, 0x1DF09); (0x1DF0B, 0x1DF1E);
    (0x1E900, 0x1E943); (0x1F130, 0x1F149); (0x1F150, 0x1F169);
    (0x1F170, 0x1F189)
  ].

Definition in_runs (runs : list (Z * Z)) (c : Z) : bool :=
  existsb (λ '(first, last), (first <=? c) && (c <=? last)) runs.

Definition case_ignorable (c : Z) : bool := in_runs case_ignorable_runs c.
Definition cased (c : Z) : bool := in_runs cased_runs c.

(** The first character of [s] that a case mapping does not look
    through. *)
Fixpoint skip_case_ignorable (s : list Z) : option Z :=
  match s with
  | [] => None
  | c :: s' => if case_ignorable c then skip_case_ignorable s' else Some c
  end.

(** A capital sigma, U+03A3, ends a word when a cased character comes
    before it and none comes after it; [before] is what precedes it,
    the nearest character first. *)
Definition final_sigma (before after : list Z) : bool :=
  match skip_case_ignorable before with
  | Some c =>
      cased c
      && match skip_case_ignorable after with
         | Some c' => negb (cased c')
         | None => true
         end
  | None => false
  end.

(** The lower case of the character [c] between [before] and [after]:
    a capital sigma becomes the final sigma U+03C2 at the end of a
    word and U+03C3 elsewhere. *)
Definition lower_char (before : list Z) (c : Z) (after : list Z) : list Z :=
  if c =? 0x3A3
  then [if final_sigma before after then 0x3C2 else 0x3C3]
  else to_lower_full c.

Fixpoint lower_from (before s : list Z) : list Z :=
  match s with
  | [] => []
  | c :: after => lower_char before c after ++ lower_from (c :: before) after
  end.

(** [s.lower()], on the characters of [s]. *)
Definition lower (s : list Z) : list Z := lower_from [] s.

(** ** [int] of a string

    [int(s)] for characters [s] that are all decimal digits, the only
    strings the program converts: read from the left, base ten.
    CPython converts 4300 digits at most, zeros at the front counted,
    and raises [ValueError] beyond; the limit is the default of
    [sys.int_info], which the program leaves as it is. *)

Definition int_max_str_digits : Z := 4300.

Definition int_limit_message (digits : nat) : string :=
  "Exceeds the limit (4300 digits) for integer string conversion: value has "
  +:+ str (Z.of_nat digits)
  +:+ " digits; use sys.set_int_max_str_digits() to increase the limit".

Fixpoint int_of_digits_from (acc : Z) (s : list Z) : Z :=
  match s with
  | [] => acc
  | c :: s' => int_of_digits_from (10 * acc + default 0 (decimal c)) s'
  end.

Definition int (s : list Z) : result Z :=
  if int_max_str_digits <? Z.of_nat (length s)
  then Raise (ValueError (int_limit_message (length s)))
  else Ok (int_of_digits_from 0 s).

(** ** Numbers

    An [int] is a [Z].  A [float] is an IEEE 754 binary64 number, with
    the operations of the Standard Library's specification of binary
    floating point at precision 53: every operation rounds to nearest,
    ties to even. *)

Definition prec : Z := 53.
Definition emax : Z := 1024.

Definition float : Type := spec_float.

(** [float(n)]: the double nearest to the integer [n]. *)
Definition float_of_int (n : Z) : float := binary_normalize prec emax n 0 false.

(** The integer [n] as an unrounded operand of a division. *)
Definition exact_int (n : Z) : float :=
  match n with
  | Z0 => S754_zero false
  | Zpos p => S754_finite false p 0
  | Zneg p => S754_finite true p 0
  end.

(** [a / b] on integers: the double nearest to the exact quotient.
    Python raises [ZeroDivisionError] when [b = 0] and [OverflowError]
    when the quotient is beyond the doubles, where this division
    answers an infinity or a NaN; the program divides a count by a
    count that is positive and at least as large. *)
Definition int_truediv (a b : Z) : float :=
  SFdiv prec emax (exact_int a) (exact_int b).

(** [x * n] and [x + n] for a float [x] and an integer [n]: the
    integer is converted first. *)
Definition float_mul_int (x : float) (n : Z) : float := SFmul prec emax x (float_of_int n).
Definition float_add_int (x : float) (n : Z) : float := SFadd prec emax x (float_of_int n).

(** [int(x)] for a float: truncation toward zero.  Python raises on an
    infinity or a NaN, which read 0 here; the program calls [int] on
    [(n / max) * 50 + 1] only, which is neither unless [n / max]
    overflows. *)
Definition int_of_float (x : float) : Z :=
  match x with
  | S754_finite s m e =>
      let a := if 0 <=? e then Z.pos m * 2 ^ e else Z.pos m / 2 ^ (- e) in
      if s then - a else a
  | _ => 0
  end.

(** ** Sequences *)

(** [range(start, stop)]. *)
Definition range (start stop : Z) : list Z := seqZ start (stop - start).

(** [sum(l)]: added from the left, starting at 0. *)
Definition sum (l : list Z) : Z := fold_left Z.add l 0.

(** [max(l)]; [ValueError] on an empty sequence. *)
Definition max (l : list Z) : result Z :=
  match l with
  | [] => Raise (ValueError "max() arg is an empty sequence")
  | x :: l' => Ok (fold_left Z.max l' x)
  end.

(** [sorted(l)] on integers. *)
Definition sorted (l : list Z) : list Z := merge_sort Z.le l.

(** [itertools.product] of the pools, as its documentation defines it:
    [result = [[]]], then for each pool
    [result = [x + [y] for x in result for y in pool]]. *)
Definition product_step {A} (result : list (list A)) (pool : list A) : list (list A) :=
  x ← result; y ← pool; [x ++ [y]].

Definition product {A} (pools : list (list A)) : list (list A) :=
  fold_left product_step pools [[]].

(** ** [collections.Counter] over integers

    A dictionary from the elements seen to how often; a missing key
    reads 0.  The program only sorts the keys, takes the largest value
    and reads counts, so the order of insertion is not kept. *)

Definition counter_get (c : gmap Z Z) (k : Z) : Z := default 0 (c !! k).

Definition counter_add (c : gmap Z Z) (k : Z) : gmap Z Z :=
  <[k := counter_get c k + 1]> c.

Definition Counter (l : list Z) : gmap Z Z := fold_left counter_add l ∅.

Definition keys (c : gmap Z Z) : list Z := (map_to_list c).*1.
Definition values (c : gmap Z Z) : list Z := (map_to_list c).*2.

(** ** A column of a pandas frame

    [int(df[col].max())] for a column of integers: on an empty frame
    pandas answers NaN, which [int] refuses. *)

Definition column_max (col : list Z) : result Z :=
  match col with
  | [] => Raise (ValueError "cannot convert float NaN to integer")
  | x :: col' => Ok (fold_left Z.max col' x)
  end.

(** ** [random.choice]

    The random source is the function [randbelow]: asked for a number
    below [n], it answers [randbelow n].  An empty sequence raises
    [IndexError], as does an index outside the sequence. *)

Definition choice {A} (randbelow : nat → nat) (seq : list A) : result A :=
  match seq with
  | [] => Raise (IndexError "Cannot choose from an empty sequence")
  | _ =>
      match seq !! randbelow (length seq) with
      | Some x => Ok x
      | None => Raise (IndexError "list index out of range")
      end
  end.

End Py.

(* ================================================================== *)
(** * Part 2: the functions of [DiceOdds.py]                           *)
(* ================================================================== *)

Import Py.

(** A row of [results]: the tuple [(sum, probability, count, graph)],
    with the names the frame gives its columns. *)
Record Row : Type := mkRow {
  Sum : Z;
  Probability : float;
  Occurrences : Z;
  Graph : string
}.

Abbreviation IO := (io Row).

(** ** [parse_die] *)

(** [re.fullmatch(r'd(\d+)', s)]: group 1 when the whole of [s] is a
    [d] and then one digit or more. *)
Definition fullmatch_die (s : list Z) : option (list Z) :=
  match s with
  | c :: digits =>
      if (c =? 0x64) && negb (bool_decide (digits = [])) && forallb is_digit digits
      then Some digits
      else None
  | [] => None
  end.

(** Both calls of [int] are on the same group: the first one raises
    when the group is too long, and the error leaves [parse_die]. *)
Definition parse_die (arg : string) : result Z :=
  match fullmatch_die (lower (code_points arg)) with
  | None => Raise (ValueError ("Invalid die format: " +:+ arg))
  | Some group1 =>
      faces ← int group1;
      if faces <? 1
      then Raise (ValueError ("Invalid die format: " +:+ arg))
      else int group1
  end.

(** ** [parse_args] *)

(** [l.append(x)]; it raises nothing. *)
Definition append {A} (l : list A) (x : A) : result (list A) := Ok (l ++ [x]).

(** The loop of [parse_args], with the two lists it fills. *)
Fixpoint parse_args_loop (args dice flags : list string)
    : IO (list string * list string) :=
  match args with
  | [] => mret (dice, flags)
  | arg :: args' =>
      if startswith arg "-" then
        flags ← lift (append flags arg);
        parse_args_loop args' dice flags
      else
        match append dice arg with
        | Ok dice => parse_args_loop args' dice flags
        | Raise (ValueError e) => print e ;; sys_exit 1
        | Raise e => raise e
        end
  end.

Definition parse_args (args : list string) : IO (list string * list string) :=
  parse_args_loop args [] [].

(** ** [process_flags] *)

Definition flag_args : list string :=
  ["-p"; "--prob"; "-o"; "--occ"; "-g"; "--graph"; "-r"; "--roll"; "-h"; "--help"].

(** The loop that refuses an unknown flag. *)
Fixpoint process_flags_loop (flags : list string) : IO unit :=
  match flags with
  | [] => mret tt
  | flag :: flags' =>
      if negb (contains flag flag_args)
      then print ("Invalid flag: " +:+ flag) ;; sys_exit 1
      else process_flags_loop flags'
  end.

Definition process_flags (flags : list string) : IO (bool * bool * bool * bool * bool) :=
  process_flags_loop flags ;;
  let show_prob := contains "-p" flags || contains "--prob" flags in
  let show_occurrences := contains "-o" flags || contains "--occ" flags in
  let show_graph := contains "-g" flags || contains "--graph" flags in
  let do_roll := contains "-r" flags || contains "--roll" flags in
  let show_help :=
    contains "-h" flags || contains "--help" flags || contains "help" flags
    || (negb show_prob && negb show_occurrences && negb show_graph && negb do_roll) in
  if show_help then
    print "Usage: python DiceOdds.py [dice1] ... [-p|--prob] [-g|--graph] [-o|--occ] [-r|--roll]" ;;
    print "" ;;
    print "Example: python DiceOdds.py d6 d8 -p -g -o" ;;
    print "" ;;
    print "Flags:" ;;
    print "-p, --prob: Show probabilities" ;;
    print "-o, --occ: Show occurrences" ;;
    print "-g, --graph: Show a graph of occurrences" ;;
    print "-r, --roll: Roll the specified dice" ;;
    print "-h, --help: Show this help message" ;;
    mret (false, false, false, false, show_help)
  else
    mret (show_prob, show_occurrences, show_graph, do_roll, show_help).

(** ** [generate_all_rolls] *)

Definition generate_all_rolls (dice_faces : list Z) : list (list Z) :=
  let ranges := (λ faces, range 1 (faces + 1)) <$> dice_faces in
  product ranges.

(** ** [get_graph_line] *)

Definition get_graph_line (n_occurrences max_occurrences : Z) : string :=
  if 50 <? max_occurrences then
    str_mul "=" (int_of_float
      (float_add_int (float_mul_int (int_truediv n_occurrences max_occurrences) 50) 1))
  else
    str_mul "=" n_occurrences.

(** ** [process_dice] *)

Definition process_dice (dice_faces : list Z) : result (list Row * Z) :=
  let rolls := generate_all_rolls dice_faces in
  let sum_counts := Counter (sum <$> rolls) in
  let total_combinations := Z.of_nat (length rolls) in
  max_occurrences ← max (values sum_counts);
  let results :=
    (λ total,
       let count := counter_get sum_counts total in
       let probability := int_truediv count total_combinations in
       let graph := get_graph_line count max_occurrences in
       mkRow total probability count graph) <$> sorted (keys sum_counts) in
  mret (results, total_combinations).

(** ** [print_graph] *)

Definition print_graph (df : list Row) : IO unit :=
  max_sum ← lift (column_max (Sum <$> df));
  let max_sum_len := len (str max_sum) in
  max_occurrences ← lift (column_max (Occurrences <$> df));
  let spaces := str_mul " " (max_sum_len - 5) in
  let graph := "Sums " +:+ spaces +:+ "| Graph" in
  let graph :=
    fold_left
      (λ graph row,
         let sum_len := len (str (Sum row)) in
         let n_spaces := Z.max (max_sum_len - sum_len) (4 - sum_len) in
         let spaces := str_mul " " n_spaces in
         let occurrences := get_graph_line (Occurrences row) max_occurrences in
         graph +:+ newline +:+ spaces +:+ str (Sum row) +:+ " | " +:+ occurrences
               +:+ " " +:+ str (Occurrences row))
      df graph in
  print graph.

(** ** [DiceOdds]

    [randbelow] is the process-wide random source and [sys_argv] the
    command line, read when [args] is [None]. *)

(** A statement that does nothing, and a plain [return]. *)
Definition pass : IO unit := mret tt.

Section Program.
Variable randbelow : nat → nat.
Variable sys_argv : list string.

Definition DiceOdds (args : option (list string)) : IO unit :=
  let args := match args with None => drop 1 sys_argv | Some args => args end in
  if bool_decide (args = []) then
    print "Usage: python DiceOdds.py [dice1] ... [-p|--prob] [-g|--graph]" ;;
    sys_exit 1
  else
  '(dice, flags) ← parse_args args;
  '(show_prob, show_occurrences, show_graph, do_roll, show_help) ← process_flags flags;
  if show_help : bool then pass else
  if bool_decide (dice = []) then
    print "Error: No dice specified." ;;
    sys_exit 1
  else
  dice_faces ←
    match mapM parse_die dice with
    | Ok dice_faces => mret dice_faces
    | Raise (ValueError e) => print e ;; sys_exit 1
    | Raise e => raise e
    end;
  '(results, total_combinations) ← lift (process_dice dice_faces);
  let df := results in
  print "" ;;
  (if show_prob && show_occurrences && show_graph then
     print_table ["Sum"; "Occurrences"; "Probability"; "Graph"] df ;; print ""
   else if show_prob && show_occurrences then
     print_table ["Sum"; "Occurrences"; "Probability"] df ;; print ""
   else if show_prob && show_graph then
     print_table ["Sum"; "Probability"; "Graph"] df ;; print ""
   else if show_occurrences && show_graph then
     print_table ["Sum"; "Occurrences"; "Graph"] df ;; print ""
   else if show_prob then
     print_table ["Sum"; "Probability"] df ;; print ""
   else if show_occurrences then
     print_table ["Sum"; "Occurrences"] df ;; print ""
   else if show_graph then
     print_graph df ;; print ""
   else pass) ;;
  (if negb do_roll || show_graph || show_occurrences || show_prob then
     print ("Total combinations: " +:+ str total_combinations) ;; print ""
   else pass) ;;
  (if do_roll : bool then
     chosen ← lift (choice randbelow (generate_all_rolls dice_faces));
     let roll := sum chosen in
     print ("Your Roll is: " +:+ str roll) ;; print ""
   else pass).

End Program.

(* ================================================================== *)
(** * Part 3: the notions of the specification                         *)
(* ================================================================== *)

(** A dice set the engine accepts: at least one die, each with at
    least one face. *)
Definition valid_dice (faces : list Z) : Prop :=
  faces ≠ [] ∧ Forall (λ F, 1 ≤ F) faces.

(** An outcome of a dice set: one value per die, the i-th between 1
    and the i-th face count. *)
Definition outcome (faces roll : list Z) : Prop :=
  Forall2 (λ F v, 1 ≤ v ≤ F) faces roll.

(** The product and the sum of the face counts. *)
Definition prod_faces (faces : list Z) : Z := foldr Z.mul 1 faces.
Definition sum_faces (faces : list Z) : Z := foldr Z.add 0 faces.

(** The number of dice. *)
Definition n_dice (faces : list Z) : Z := Z.of_nat (length faces).

(** The lexicographic order on tuples: the first component decides,
    the later ones break ties. *)
Fixpoint lex_lt (a b : list Z) : Prop :=
  match a, b with
  | [], [] => False
  | [], _ :: _ => True
  | _ :: _, [] => False
  | x :: a', y :: b' => x < y ∨ (x = y ∧ lex_lt a' b')
  end.

(** The product of the pools by recursion on them: the first pool is
    the outermost loop, so its component varies slowest. *)
Fixpoint cartesian {A} (pools : list (list A)) : list (list A) :=
  match pools with
  | [] => [[]]
  | pool :: pools' => x ← pool; (x ::.) <$> cartesian pools'
  end.

(** How many elements of [l] equal [k]. *)
Definition occurrences (k : Z) (l : list Z) : Z :=
  Z.of_nat (length (filter (λ x, x = k) l)).

(** The sum of a list of integers, and of the count column of a table. *)
Definition total (l : list Z) : Z := foldr Z.add 0 l.
Definition total_count (table : list Row) : Z := total (Occurrences <$> table).

(** The sums of all the rolls, in the order of the enumeration: what
    [process_dice] counts. *)
Definition all_sums (faces : list Z) : list Z := sum <$> generate_all_rolls faces.

(** The table [process_dice] builds from the dictionary of counts, the
    total and the largest count. *)
Definition table_of (sum_counts : gmap Z Z) (total_combinations max_occurrences : Z)
    : list Row :=
  (λ k, mkRow k (int_truediv (counter_get sum_counts k) total_combinations)
              (counter_get sum_counts k)
              (get_graph_line (counter_get sum_counts k) max_occurrences))
  <$> sorted (keys sum_counts).

(** A decimal digit is a character that has a decimal value, in
    whatever script; [digit_value] is the number it stands for. *)
Definition decimal_digit (c : Z) : Prop := is_Some (decimal c).

Definition digit_value (c : Z) : Z := default 0 (decimal c).

(** The ten digits [0] to [9] of ASCII. *)
Definition ascii_digit (c : Z) : Prop := 0x30 ≤ c ≤ 0x39.

(** The number a string of decimal digits denotes: each digit times
    the power of ten of its place. *)
Fixpoint decimal_value (ds : list Z) : Z :=
  match ds with
  | [] => 0
  | c :: ds' => digit_value c * 10 ^ Z.of_nat (length ds') + decimal_value ds'
  end.

(** A die token as the specification describes it: a [d], in either
    case, followed by the decimal digits [ds], at least one. *)
Definition die_token (token : string) (ds : list Z) : Prop :=
  (code_points token = 0x64 :: ds ∨ code_points token = 0x44 :: ds)
  ∧ ds ≠ []
  ∧ Forall decimal_digit ds.

(** A die token of 4300 zeros and a 6: the number 6, on 4301 digits. *)
Definition long_die_token : string := "d" +:+ str_mul "0" 4300 +:+ "6".

(** No run of lower-casing characters meets the decimal digits, on
    either side, and only [D] becomes [d]. *)
Definition run_clear (run : Z * Z * Z * Z) : bool :=
  let '(first, last, _, delta) := run in
  forallb (λ zero, ((last <? zero) || (zero + 9 <? first))
                   && ((last + delta <? zero) || (zero + 9 <? first + delta)))
          decimal_zeros
  && ((last + delta <? 0x64) || (0x64 <? first + delta) || (delta =? 32)).

(** The error [parse_die] raises on the token. *)
Definition invalid_die_format (token : string) : exn :=
  ValueError ("Invalid die format: " +:+ token).

(** [round(a / b)] for [b > 0]: the nearest integer, a tie going to
    the even one, as Python's [round] does. *)
Definition round_div (a b : Z) : Z :=
  let q := a / b in
  let r := a mod b in
  if 2 * r <? b then q
  else if b <? 2 * r then q + 1
  else if Z.even q then q else q + 1.

(** The length the specification gives the graph token. *)
Definition claimed_graph_length (c m : Z) : Z :=
  if m <=? 50 then c else round_div (c * 50) m + 1.

(** The length [get_graph_line] computes when the largest count
    exceeds 50: [int((n / max) * 50 + 1)], in double precision. *)
Definition graph_length (c m : Z) : Z :=
  int_of_float (float_add_int (float_mul_int (int_truediv c m) 50) 1).

(** What [graph_length] is in exact arithmetic, but for the quotient
    29/50, whose double falls short of it. *)
Definition graph_length_exact (c m : Z) : Z :=
  if 50 * c =? 29 * m then 29 else 50 * c / m + 1.

(** The two agree for every count up to the largest, for every largest
    count from 51 to [bound]. *)
Definition graph_length_agrees (bound : Z) : bool :=
  forallb (λ m, forallb (λ c, graph_length c m =? graph_length_exact c m) (seqZ 1 m))
          (seqZ 51 (bound - 50)).

(** The arguments [DiceOdds] works on: those it is called with, or the
    command line without the name of the program. *)
Definition arguments (sys_argv : list string) (args : option (list string))
    : list string :=
  match args with
  | None => drop 1 sys_argv
  | Some args => args
  end.

(** A valid invocation that is not a request for help: the arguments
    split into dice and flags, the flags are all known and do not ask
    for help, there is a die, and every die token parses.  [faces] are
    the face counts and the booleans what [process_flags] returns. *)
Definition valid_invocation (args : list string) (faces : list Z)
    (show_prob show_occurrences show_graph do_roll : bool) : Prop :=
  ∃ dice flags,
    parse_args args = ([], Ok (dice, flags))
    ∧ process_flags flags
      = ([], Ok (show_prob, show_occurrences, show_graph, do_roll, false))
    ∧ dice ≠ []
    ∧ mapM parse_die dice = Ok faces.

(** The three stages of [DiceOdds] after the table is computed: the
    display of the table, the line of the total, and the roll. *)
Definition display (show_prob show_occurrences show_graph : bool) (df : list Row)
    : IO unit :=
  if show_prob && show_occurrences && show_graph then
    print_table ["Sum"; "Occurrences"; "Probability"; "Graph"] df ;; print ""
  else if show_prob && show_occurrences then
    print_table ["Sum"; "Occurrences"; "Probability"] df ;; print ""
  else if show_prob && show_graph then
    print_table ["Sum"; "Probability"; "Graph"] df ;; print ""
  else if show_occurrences && show_graph then
    print_table ["Sum"; "Occurrences"; "Graph"] df ;; print ""
  else if show_prob then
    print_table ["Sum"; "Probability"] df ;; print ""
  else if show_occurrences then
    print_table ["Sum"; "Occurrences"] df ;; print ""
  else if show_graph then
    print_graph df ;; print ""
  else pass.

Definition report_total (show_prob show_occurrences show_graph do_roll : bool)
    (total_combinations : Z) : IO unit :=
  if negb do_roll || show_graph || show_occurrences || show_prob then
    print ("Total combinations: " +:+ str total_combinations) ;; print ""
  else pass.

Definition roll_dice (randbelow : nat → nat) (do_roll : bool) (dice_faces : list Z)
    : IO unit :=
  if do_roll then
    chosen ← lift (choice randbelow (generate_all_rolls dice_faces));
    print ("Your Roll is: " +:+ str (sum chosen)) ;; print ""
  else pass.

(** The line of the total, as a printed text. *)
Definition is_total_line (o : output Row) : Prop :=
  ∃ rest, o = Text ("Total combinations: " +:+ rest).

(** The ten lines of help that [process_flags] prints. *)
Definition help_text : list (output Row) :=
  [Text "Usage: python DiceOdds.py [dice1] ... [-p|--prob] [-g|--graph] [-o|--occ] [-r|--roll]";
   Text "";
   Text "Example: python DiceOdds.py d6 d8 -p -g -o";
   Text "";
   Text "Flags:";
   Text "-p, --prob: Show probabilities";
   Text "-o, --occ: Show occurrences";
   Text "-g, --graph: Show a graph of occurrences";
   Text "-r, --roll: Roll the specified dice";
   Text "-h, --help: Show this help message"].

(** The line [DiceOdds] prints when it has no argument at all. *)
Definition short_usage : string :=
  "Usage: python DiceOdds.py [dice1] ... [-p|--prob] [-g|--graph]".

(** The arguments that are flags and those that are dice, in order. *)
Definition flags_of (args : list string) : list string :=
  filter (λ arg, startswith arg "-") args.
Definition dice_of (args : list string) : list string :=
  filter (λ arg, ¬ startswith arg "-") args.

(** The flags ask for one of the four actions. *)
Definition asks_action (flags : list string) : Prop :=
  "-p" ∈ flags ∨ "--prob" ∈ flags ∨ "-o" ∈ flags ∨ "--occ" ∈ flags
  ∨ "-g" ∈ flags ∨ "--graph" ∈ flags ∨ "-r" ∈ flags ∨ "--roll" ∈ flags.

(** The flags make [process_flags] show the help: one of them asks for
    it, or none asks for an action. *)
Definition asks_help (flags : list string) : Prop :=
  "-h" ∈ flags ∨ "--help" ∈ flags ∨ ¬ asks_action flags.


(** The heading of the text of [print_graph] and the line of a row,
    for the largest sum and the largest count of the frame. *)
Definition graph_heading (max_sum : Z) : string :=
  "Sums " +:+ str_mul " " (len (str max_sum) - 5) +:+ "| Graph".

Definition graph_row (max_sum max_occurrences : Z) (row : Row) : string :=
  str_mul " " (Z.max (len (str max_sum) - len (str (Sum row)))
                     (4 - len (str (Sum row))))
  +:+ str (Sum row) +:+ " | "
  +:+ get_graph_line (Occurrences row) max_occurrences
  +:+ " " +:+ str (Occurrences row).

(** The string has a line break in it. *)
Definition has_newline (s : string) : Prop :=
  ascii_of_nat 10 ∈ list_ascii_of_string s.

(* ================================================================== *)
(** * Part 4: the properties                                           *)
(* ================================================================== *)

(** ** Characters: some values of the runtime *)

Example code_points_examples :
  code_points "d6" = [0x64; 0x36]
  ∧ code_points "d٣" = [0x64; 0x663]
  ∧ code_points "é€𝟘" = [0xE9; 0x20AC; 0x1D7D8]
  ∧ code_points (String (ascii_of_nat 255) "A") = [0xDCFF; 0x41]
  ∧ len "é€𝟘" = 3.
Proof. by split_and!. Qed.

Example lower_examples :
  lower (code_points "D20") = code_points "d20"
  ∧ lower (code_points "ΟΔΟΣ ΣΑΣ") = code_points "οδος σας"
  ∧ lower (code_points "İ") = [0x69; 0x307].
Proof. by split_and!. Qed.

Example decimal_examples :
  Forall (λ c, decimal c = Some (c - 0x30)) (seqZ 0x30 10)
  ∧ decimal 0x2F = None
  ∧ decimal 0x3A = None
  ∧ decimal 0x663 = Some 3
  ∧ decimal 0x1D7D8 = Some 0
  ∧ decimal 0xB2 = None
  ∧ decimal 0x2167 = None.
Proof. split_and!; [|done..]. apply (bool_decide_unpack _). by vm_compute. Qed.

Example int_examples :
  int (code_points "007") = Ok 7
  ∧ int (code_points "٣6") = Ok 36
  ∧ int (replicate 4300 0x39) = Ok (10 ^ 4300 - 1)
  ∧ int (replicate 4301 0x30)
    = Raise (ValueError "Exceeds the limit (4300 digits) for integer string conversion: value has 4301 digits; use sys.set_int_max_str_digits() to increase the limit").
Proof. split_and!; by vm_compute. Qed.

(** ** The assertions of [DiceOddsTest.py] *)

Example test_parse_die :
  parse_die "d6" = Ok 6 ∧ parse_die "d20" = Ok 20 ∧ parse_die "d100" = Ok 100
  ∧ parse_die "dabc" = Raise (ValueError "Invalid die format: dabc")
  ∧ parse_die "abc" = Raise (ValueError "Invalid die format: abc")
  ∧ parse_die "d" = Raise (ValueError "Invalid die format: d")
  ∧ parse_die "d0" = Raise (ValueError "Invalid die format: d0")
  ∧ parse_die "d-1" = Raise (ValueError "Invalid die format: d-1").
Proof. by split_and!. Qed.

Example test_parse_args :
  parse_args ["d6"; "d8"; "-p"; "-g"] = ([], Ok (["d6"; "d8"], ["-p"; "-g"]))
  ∧ parse_args ["-o"; "d10"; "-r"] = ([], Ok (["d10"], ["-o"; "-r"]))
  ∧ parse_args ["d4"; "-h"] = ([], Ok (["d4"], ["-h"]))
  ∧ parse_args ["-g"; "d6"; "d8"] = ([], Ok (["d6"; "d8"], ["-g"]))
  ∧ parse_args ["-o"; "-g"; "d10"] = ([], Ok (["d10"], ["-o"; "-g"])).
Proof. by split_and!. Qed.

Example test_process_flags :
  (process_flags ["-p"; "-o"; "-g"; "-r"]).2 = Ok (true, true, true, true, false)
  ∧ (process_flags ["-p"; "-o"; "-g"; "-r"; "-h"]).2 = Ok (false, false, false, false, true)
  ∧ (process_flags ["-p"; "-o"; "-g"]).2 = Ok (true, true, true, false, false)
  ∧ (process_flags ["-r"]).2 = Ok (false, false, false, true, false).
Proof. by split_and!. Qed.

(** Two dice [d6]: eleven sums from 2 to 12, 7 the most frequent with
    six rolls, 36 rolls in all. *)
Example process_dice_d6_d6 :
  ∃ table,
    process_dice [6; 6] = Ok (table, 36)
    ∧ (λ row, (Sum row, Occurrences row, Graph row)) <$> table
      = [(2, 1, "="); (3, 2, "=="); (4, 3, "==="); (5, 4, "===="); (6, 5, "=====");
         (7, 6, "======"); (8, 5, "====="); (9, 4, "===="); (10, 3, "===");
         (11, 2, "=="); (12, 1, "=")].
Proof. eexists. split; vm_compute; reflexivity. Qed.

(** ** The list monad *)

Lemma list_bind_assoc {A B C} (f : A → list B) (g : B → list C) (l : list A) :
  (l ≫= f) ≫= g = l ≫= (λ x, f x ≫= g).
Proof.
  induction l as [|x l IH]; [done|].
  by rewrite !bind_cons, bind_app, IH.
Qed.

Lemma list_bind_ret {A} (l : list A) : l ≫= (λ x, [x]) = l.
Proof. induction l as [|x l IH]; [done|]. rewrite bind_cons, IH. done. Qed.

Lemma list_bind_fmap {A B} (f : A → B) (l : list A) :
  l ≫= (λ x, [f x]) = f <$> l.
Proof. induction l as [|x l IH]; [done|]. rewrite bind_cons, IH. done. Qed.

Lemma length_list_bind_const {A B} (f : A → list B) (l : list A) (n : nat) :
  (∀ x, length (f x) = n) → length (l ≫= f) = (length l * n)%nat.
Proof.
  intros Hf. induction l as [|x l IH]; [done|].
  rewrite bind_cons, length_app, Hf, IH. simpl. lia.
Qed.

(** ** [itertools.product] is the Cartesian product *)

Section product.
Context {A : Type}.
Implicit Types (pool : list A) (pools : list (list A)).

(** The loop of [product], started from any intermediate result. *)
Lemma product_fold pools (acc : list (list A)) :
  fold_left product_step pools acc = a ← acc; t ← cartesian pools; [a ++ t].
Proof.
  revert acc. induction pools as [|pool pools IH]; intros acc; simpl.
  - symmetry. erewrite list_bind_ext; [apply list_bind_ret| |done].
    intros a. simpl. by rewrite app_nil_r.
  - rewrite IH. unfold product_step. rewrite list_bind_assoc.
    apply list_bind_ext; [|done]. intros a.
    rewrite !list_bind_assoc. apply list_bind_ext; [|done]. intros y.
    rewrite bind_singleton, <- list_bind_fmap, list_bind_assoc.
    apply list_bind_ext; [|done]. intros t.
    by rewrite bind_singleton, <- app_assoc.
Qed.

Lemma product_cartesian pools : product pools = cartesian pools.
Proof.
  unfold product. rewrite product_fold, bind_singleton.
  erewrite list_bind_ext; [apply list_bind_ret|done|done].
Qed.

Lemma length_cartesian pools :
  length (cartesian pools) = foldr (λ pool n, (length pool * n)%nat) 1%nat pools.
Proof.
  induction pools as [|pool pools IH]; [done|]. simpl.
  rewrite (length_list_bind_const _ _ (length (cartesian pools))).
  - by rewrite IH.
  - intros x. by rewrite length_fmap.
Qed.

Lemma elem_of_cartesian pools (t : list A) :
  t ∈ cartesian pools ↔ Forall2 (λ pool v, v ∈ pool) pools t.
Proof.
  revert t. induction pools as [|pool pools IH]; intros t; simpl.
  - rewrite list_elem_of_singleton. split.
    + intros ->. constructor.
    + intros H. by apply Forall2_nil_inv_l in H.
  - rewrite list_elem_of_bind. split.
    + intros (x & Ht & Hx). apply list_elem_of_fmap in Ht as (t' & -> & Ht').
      constructor; [done|]. by apply IH.
    + intros H. apply Forall2_cons_inv_l in H as (v & t' & Hv & Ht' & ->).
      exists v. split; [|done]. apply list_elem_of_fmap. exists t'.
      split; [done|]. by apply IH.
Qed.

End product.

(** ** The order of the enumeration *)

Lemma seqZ_sorted (m n : Z) : StronglySorted Z.lt (seqZ m n).
Proof.
  remember (Z.to_nat n) as k eqn:Hk. revert m n Hk.
  induction k as [|k IH]; intros m n Hk.
  - rewrite seqZ_nil by lia. constructor.
  - rewrite seqZ_cons by lia. constructor.
    + apply IH. lia.
    + apply Forall_forall. intros x Hx. apply elem_of_seqZ in Hx. lia.
Qed.

Lemma lex_lt_cons (x : Z) (a b : list Z) : lex_lt a b → lex_lt (x :: a) (x :: b).
Proof. intros H. simpl. by right. Qed.

Lemma cartesian_sorted (pools : list (list Z)) :
  Forall (StronglySorted Z.lt) pools → StronglySorted lex_lt (cartesian pools).
Proof.
  induction 1 as [|pool pools Hpool _ IH]; simpl.
  - repeat constructor.
  - induction Hpool as [|x pool _ IHpool Hx].
    + constructor.
    + rewrite bind_cons. apply StronglySorted_app_2; [| |done].
      2:{ apply (StronglySorted_fmap _ lex_lt lex_lt); [|done].
          intros a b Hab. by apply lex_lt_cons. }
      intros t1 t2 Ht1 Ht2.
      apply list_elem_of_fmap in Ht1 as (t1' & -> & _).
      apply list_elem_of_bind in Ht2 as (y & Ht2 & Hy).
      apply list_elem_of_fmap in Ht2 as (t2' & -> & _).
      simpl. left. rewrite Forall_forall in Hx. by apply Hx.
Qed.

(** ** [generate_all_rolls] *)

Lemma generate_all_rolls_cartesian (faces : list Z) :
  generate_all_rolls faces = cartesian ((λ F, range 1 (F + 1)) <$> faces).
Proof. unfold generate_all_rolls. apply product_cartesian. Qed.

Lemma generate_all_rolls_cons (F : Z) (faces : list Z) :
  generate_all_rolls (F :: faces)
  = v ← range 1 (F + 1); (v ::.) <$> generate_all_rolls faces.
Proof. by rewrite !generate_all_rolls_cartesian. Qed.

Lemma elem_of_range (start stop k : Z) : k ∈ range start stop ↔ start ≤ k < stop.
Proof. unfold range. rewrite elem_of_seqZ. lia. Qed.

Lemma elem_of_generate_all_rolls (faces roll : list Z) :
  roll ∈ generate_all_rolls faces ↔ outcome faces roll.
Proof.
  rewrite generate_all_rolls_cartesian, elem_of_cartesian, Forall2_fmap_l.
  unfold outcome.
  split; intros H; eapply Forall2_impl; try exact H;
    intros F v; simpl; rewrite elem_of_range; lia.
Qed.

Lemma length_generate_all_rolls (faces : list Z) :
  Forall (λ F, 0 ≤ F) faces →
  Z.of_nat (length (generate_all_rolls faces)) = prod_faces faces.
Proof.
  rewrite generate_all_rolls_cartesian, length_cartesian.
  induction 1 as [|F faces HF _ IH]; [done|]. cbn [fmap list_fmap foldr prod_faces].
  rewrite Nat2Z.inj_mul. fold (prod_faces faces). rewrite <- IH.
  unfold range. rewrite length_seqZ. f_equal. lia.
Qed.

Lemma generate_all_rolls_sorted (faces : list Z) :
  StronglySorted lex_lt (generate_all_rolls faces).
Proof.
  rewrite generate_all_rolls_cartesian. apply cartesian_sorted.
  apply Forall_fmap, Forall_forall. intros F _. apply seqZ_sorted.
Qed.

Lemma valid_dice_nonneg (faces : list Z) :
  valid_dice faces → Forall (λ F, 0 ≤ F) faces.
Proof. intros [_ H]. eapply Forall_impl; [done|]. simpl. lia. Qed.

Lemma valid_d6_d6 : valid_dice [6; 6].
Proof. split; [done|]. repeat constructor; lia. Qed.

(** C2.  For a non-empty list of face counts, each at least 1,
    [generate_all_rolls] returns the full Cartesian product of the
    ranges [1..F_i]: it has [F_1 * ... * F_n] tuples, a tuple is in it
    exactly when it has one component per die with the i-th between 1
    and [F_i], and the list is strictly increasing in the lexicographic
    order, so the first die varies slowest and the last fastest. *)
Theorem generate_all_rolls_full_product (faces : list Z) :
  valid_dice faces →
  Z.of_nat (length (generate_all_rolls faces)) = prod_faces faces
  ∧ (∀ roll, roll ∈ generate_all_rolls faces ↔ outcome faces roll)
  ∧ (∀ roll, roll ∈ generate_all_rolls faces → length roll = length faces)
  ∧ StronglySorted lex_lt (generate_all_rolls faces).
Proof.
  intros Hvalid. split_and!.
  - by apply length_generate_all_rolls, valid_dice_nonneg.
  - apply elem_of_generate_all_rolls.
  - intros roll Hroll. apply elem_of_generate_all_rolls in Hroll.
    symmetry. by eapply Forall2_length.
  - apply generate_all_rolls_sorted.
Qed.

Lemma generate_all_rolls_full_product_d6_d6 :
  Z.of_nat (length (generate_all_rolls [6; 6])) = prod_faces [6; 6]
  ∧ (∀ roll, roll ∈ generate_all_rolls [6; 6] ↔ outcome [6; 6] roll)
  ∧ (∀ roll, roll ∈ generate_all_rolls [6; 6] → length roll = length [6; 6])
  ∧ StronglySorted lex_lt (generate_all_rolls [6; 6]).
Proof. apply (generate_all_rolls_full_product [6; 6]). exact valid_d6_d6. Defined.

(** ** [Counter] *)

Lemma occurrences_cons (k x : Z) (l : list Z) :
  occurrences k (x :: l) = (if decide (x = k) then 1 else 0) + occurrences k l.
Proof.
  unfold occurrences. rewrite filter_cons.
  destruct (decide (x = k)); simpl; lia.
Qed.

Lemma occurrences_pos (k : Z) (l : list Z) : k ∈ l → 0 < occurrences k l.
Proof.
  intros Hk. unfold occurrences.
  assert (k ∈ filter (λ x, x = k) l) as Hin by by apply list_elem_of_filter.
  destruct (filter (λ x, x = k) l); [by apply not_elem_of_nil in Hin|]. simpl. lia.
Qed.

Lemma occurrences_not_elem (k : Z) (l : list Z) : k ∉ l → occurrences k l = 0.
Proof.
  intros Hk. unfold occurrences.
  destruct (filter (λ x, x = k) l) as [|y f] eqn:Hf; [done|].
  assert (y ∈ filter (λ x, x = k) l) as Hy by (rewrite Hf; left).
  apply list_elem_of_filter in Hy as [-> Hy]. done.
Qed.

Lemma occurrences_Permutation (k : Z) (l1 l2 : list Z) :
  l1 ≡ₚ l2 → occurrences k l1 = occurrences k l2.
Proof. intros H. unfold occurrences. by rewrite H. Qed.

(** What the loop of [Counter] leaves at a key, from any dictionary. *)
Lemma counter_fold_lookup (l : list Z) (acc : gmap Z Z) (k : Z) :
  fold_left counter_add l acc !! k
  = if decide (k ∈ l) then Some (counter_get acc k + occurrences k l) else acc !! k.
Proof.
  revert acc. induction l as [|x l IH]; intros acc; simpl.
  - destruct (decide (k ∈ [])) as [Hin|_]; [|done]. by apply not_elem_of_nil in Hin.
  - rewrite IH, occurrences_cons. unfold counter_add, counter_get.
    destruct (decide (x = k)) as [->|Hne].
    + rewrite lookup_insert_eq. simpl.
      destruct (decide (k ∈ k :: l)) as [_|Hnin]; [|by destruct Hnin; left].
      destruct (decide (k ∈ l)); f_equal; [lia|].
      rewrite (occurrences_not_elem k l) by done. lia.
    + rewrite lookup_insert_ne by done.
      destruct (decide (k ∈ l)) as [Hin|Hnin], (decide (k ∈ x :: l)) as [Hin'|Hnin'].
      * f_equal; lia.
      * destruct Hnin'. by right.
      * apply elem_of_cons in Hin' as [->|?]; done.
      * done.
Qed.

Lemma Counter_lookup (l : list Z) (k : Z) :
  Counter l !! k = if decide (k ∈ l) then Some (occurrences k l) else None.
Proof.
  unfold Counter. rewrite counter_fold_lookup. unfold counter_get.
  rewrite lookup_empty. simpl. by destruct (decide (k ∈ l)).
Qed.

Lemma counter_get_Counter (l : list Z) (k : Z) :
  counter_get (Counter l) k = occurrences k l.
Proof.
  unfold counter_get. rewrite Counter_lookup.
  destruct (decide (k ∈ l)); [done|]. simpl. by rewrite occurrences_not_elem.
Qed.

Lemma elem_of_keys (c : gmap Z Z) (k : Z) : k ∈ keys c ↔ is_Some (c !! k).
Proof.
  unfold keys. rewrite list_elem_of_fmap. split.
  - intros ([k' v] & -> & Hin). apply elem_of_map_to_list in Hin. by exists v.
  - intros [v Hv]. exists (k, v). split; [done|]. by apply elem_of_map_to_list.
Qed.

Lemma elem_of_keys_Counter (l : list Z) (k : Z) : k ∈ keys (Counter l) ↔ k ∈ l.
Proof.
  rewrite elem_of_keys, Counter_lookup.
  destruct (decide (k ∈ l)); split; try done; by intros [? ?].
Qed.

Lemma NoDup_keys (c : gmap Z Z) : NoDup (keys c).
Proof. apply NoDup_fst_map_to_list. Qed.

Lemma values_keys (c : gmap Z Z) : values c = counter_get c <$> keys c.
Proof.
  unfold values, keys. rewrite <- list_fmap_compose.
  apply list_fmap_ext. intros i [k v] Hi. simpl.
  apply list_elem_of_lookup_2, elem_of_map_to_list in Hi.
  unfold counter_get. by rewrite Hi.
Qed.

Lemma Counter_Permutation (l1 l2 : list Z) : l1 ≡ₚ l2 → Counter l1 = Counter l2.
Proof.
  intros Hperm. apply map_eq. intros k. rewrite !Counter_lookup.
  rewrite (occurrences_Permutation k l1 l2 Hperm).
  destruct (decide (k ∈ l1)) as [H1|H1], (decide (k ∈ l2)) as [H2|H2]; try done.
  - destruct H2. by rewrite <- Hperm.
  - destruct H1. by rewrite Hperm.
Qed.

Lemma Counter_nonempty (l : list Z) : l ≠ [] → values (Counter l) ≠ [].
Proof.
  intros Hl Hv. destruct l as [|x l]; [done|].
  assert (x ∈ keys (Counter (x :: l))) as Hx by (apply elem_of_keys_Counter; left).
  rewrite values_keys in Hv. apply fmap_nil_inv in Hv. rewrite Hv in Hx.
  by apply not_elem_of_nil in Hx.
Qed.

(** ** Sums of counts *)

Lemma total_Permutation (l1 l2 : list Z) : l1 ≡ₚ l2 → total l1 = total l2.
Proof. unfold total. induction 1; simpl; lia. Qed.

Lemma total_indicator (x : Z) (ks : list Z) :
  NoDup ks → x ∈ ks → total ((λ k, if decide (x = k) then 1 else 0) <$> ks) = 1.
Proof.
  induction 1 as [|k ks Hk Hnd IH]; intros Hx; [by apply not_elem_of_nil in Hx|].
  cbn [fmap list_fmap total foldr]. fold (total ((λ k, if decide (x = k) then 1 else 0) <$> ks)).
  destruct (decide (x = k)) as [->|Hne].
  - assert (total ((λ k0, if decide (k = k0) then 1 else 0) <$> ks) = 0) as ->; [|done].
    clear IH Hnd Hx. induction ks as [|k' ks IH]; [done|].
    cbn [fmap list_fmap total foldr].
    rewrite not_elem_of_cons in Hk. destruct Hk as [Hne Hk].
    rewrite decide_False by done. by apply IH.
  - apply elem_of_cons in Hx as [?|Hx]; [done|]. by rewrite IH.
Qed.

Lemma total_occurrences (ks l : list Z) :
  NoDup ks → (∀ x, x ∈ l → x ∈ ks) →
  total ((λ k, occurrences k l) <$> ks) = Z.of_nat (length l).
Proof.
  intros Hnd. induction l as [|x l IH]; intros Hsub.
  - clear. unfold total. induction ks as [|k ks IH]; [done|].
    cbn [fmap list_fmap foldr]. rewrite IH. done.
  - assert (total ((λ k, occurrences k (x :: l)) <$> ks)
            = total ((λ k, if decide (x = k) then 1 else 0) <$> ks)
              + total ((λ k, occurrences k l) <$> ks)) as ->.
    { clear. induction ks as [|k ks IH]; [done|].
      cbn [fmap list_fmap total foldr]. unfold total in *. rewrite IH, occurrences_cons. lia. }
    rewrite total_indicator, IH; [simpl; lia| |done|].
    + intros y Hy. apply Hsub. by right.
    + apply Hsub. left.
Qed.

(** ** [sorted] *)

Lemma sorted_Permutation (l : list Z) : sorted l ≡ₚ l.
Proof. apply merge_sort_Permutation. Qed.

Lemma elem_of_sorted (l : list Z) (x : Z) : x ∈ sorted l ↔ x ∈ l.
Proof. by rewrite sorted_Permutation. Qed.

Lemma sorted_le (l : list Z) : StronglySorted Z.le (sorted l).
Proof. apply (StronglySorted_merge_sort Z.le). Qed.

Lemma StronglySorted_le_lt (l : list Z) :
  NoDup l → StronglySorted Z.le l → StronglySorted Z.lt l.
Proof.
  induction 2 as [|x l Hl IH Hx]; [constructor|].
  apply NoDup_cons in H as [Hnin Hnd]. constructor; [by apply IH|].
  rewrite Forall_forall in *. intros y Hy.
  assert (x ≠ y) by (by intros ->). specialize (Hx y Hy). lia.
Qed.

Lemma StronglySorted_lt_le (l : list Z) :
  StronglySorted Z.lt l → StronglySorted Z.le l.
Proof.
  induction 1 as [|x l Hl IH Hx]; constructor; [done|].
  eapply Forall_impl; [done|]. simpl. lia.
Qed.

Lemma sorted_lt (l : list Z) : NoDup l → StronglySorted Z.lt (sorted l).
Proof.
  intros Hnd. apply StronglySorted_le_lt; [|apply sorted_le].
  by rewrite sorted_Permutation.
Qed.

(** ** [process_dice] *)

Lemma sum_from (l : list Z) (a : Z) : fold_left Z.add l a = a + total l.
Proof.
  revert a. induction l as [|x l IH]; intros a; simpl; [lia|].
  rewrite IH. unfold total. lia.
Qed.

Lemma sum_total (l : list Z) : sum l = total l.
Proof. unfold sum. by rewrite sum_from. Qed.

Lemma generate_all_rolls_nonempty (faces : list Z) :
  Forall (λ F, 1 ≤ F) faces → generate_all_rolls faces ≠ [].
Proof.
  intros Hfaces Hnil.
  assert (((λ _, 1) <$> faces) ∈ generate_all_rolls faces) as Hin.
  { apply elem_of_generate_all_rolls. unfold outcome.
    apply Forall2_fmap_r, Forall_Forall2_diag.
    eapply Forall_impl; [done|]. simpl. lia. }
  rewrite Hnil in Hin. by apply not_elem_of_nil in Hin.
Qed.

Lemma max_nonempty (l : list Z) : l ≠ [] → ∃ m, max l = Ok m.
Proof. destruct l as [|x l]; [done|]. intros _. by eexists. Qed.

(** With a roll to count, [process_dice] returns its table and the
    number of rolls. *)
Lemma process_dice_returns (faces : list Z) :
  generate_all_rolls faces ≠ [] →
  ∃ max_occurrences,
    max (values (Counter (all_sums faces))) = Ok max_occurrences
    ∧ process_dice faces
      = Ok (table_of (Counter (all_sums faces))
                     (Z.of_nat (length (generate_all_rolls faces))) max_occurrences,
            Z.of_nat (length (generate_all_rolls faces))).
Proof.
  intros Hne.
  destruct (max_nonempty (values (Counter (all_sums faces)))) as [m Hm].
  { apply Counter_nonempty. unfold all_sums. by destruct (generate_all_rolls faces). }
  exists m. split; [done|]. unfold process_dice. fold (all_sums faces). by rewrite Hm.
Qed.

Lemma Sum_table_of (c : gmap Z Z) (T m : Z) : Sum <$> table_of c T m = sorted (keys c).
Proof. unfold table_of. rewrite <- list_fmap_compose. apply list_fmap_id. Qed.

Lemma Occurrences_table_of (c : gmap Z Z) (T m : Z) :
  Occurrences <$> table_of c T m = counter_get c <$> sorted (keys c).
Proof. unfold table_of. by rewrite <- list_fmap_compose. Qed.

Lemma total_count_table_of (l : list Z) (T m : Z) :
  total_count (table_of (Counter l) T m) = Z.of_nat (length l).
Proof.
  unfold total_count. rewrite Occurrences_table_of.
  rewrite (total_Permutation _ (counter_get (Counter l) <$> keys (Counter l)))
    by by rewrite sorted_Permutation.
  rewrite (list_fmap_ext _ (λ k, occurrences k l))
    by (intros i k _; apply counter_get_Counter).
  apply total_occurrences; [apply NoDup_keys|].
  intros x Hx. by apply elem_of_keys_Counter.
Qed.

(** C1.  For a non-empty list of face counts, each at least 1,
    [process_dice] returns a table and a total such that the counts of
    the table add up to the total, and the total is the product of the
    face counts, as integers. *)
Theorem process_dice_counts_sum_to_product (faces : list Z) :
  valid_dice faces →
  ∃ table total_combinations,
    process_dice faces = Ok (table, total_combinations)
    ∧ total_count table = total_combinations
    ∧ total_combinations = prod_faces faces.
Proof.
  intros Hvalid.
  destruct (process_dice_returns faces) as (m & _ & Hret).
  { apply generate_all_rolls_nonempty, Hvalid. }
  eexists _, _. split; [exact Hret|]. split.
  - rewrite total_count_table_of. unfold all_sums. by rewrite length_fmap.
  - by apply length_generate_all_rolls, valid_dice_nonneg.
Qed.

Lemma process_dice_counts_sum_to_product_d6_d6 :
  ∃ table total_combinations,
    process_dice [6; 6] = Ok (table, total_combinations)
    ∧ total_count table = total_combinations
    ∧ total_combinations = prod_faces [6; 6].
Proof. apply (process_dice_counts_sum_to_product [6; 6]). exact valid_d6_d6. Defined.

Lemma elem_of_all_sums (faces : list Z) (s : Z) :
  s ∈ all_sums faces ↔ ∃ roll, outcome faces roll ∧ total roll = s.
Proof.
  unfold all_sums. rewrite list_elem_of_fmap. split.
  - intros (roll & -> & Hroll). exists roll.
    split; [by apply elem_of_generate_all_rolls|]. by rewrite sum_total.
  - intros (roll & Hroll & <-). exists roll.
    split; [by rewrite sum_total|]. by apply elem_of_generate_all_rolls.
Qed.

Lemma elem_of_table_of (c : gmap Z Z) (T m : Z) (row : Row) :
  row ∈ table_of c T m → Sum row ∈ keys c ∧ Occurrences row = counter_get c (Sum row).
Proof.
  unfold table_of. intros Hrow.
  apply list_elem_of_fmap in Hrow as (k & -> & Hk).
  split; [|done]. simpl. by apply elem_of_sorted.
Qed.

(** C3.  For a non-empty list of face counts, each at least 1, the
    table [process_dice] returns is strictly ascending in its sums, no
    sum appears twice, and a sum has an entry exactly when some outcome
    achieves it; every entry has a positive count. *)
Theorem process_dice_table_sorted_by_sum (faces : list Z) :
  valid_dice faces →
  ∃ table total_combinations,
    process_dice faces = Ok (table, total_combinations)
    ∧ StronglySorted Z.lt (Sum <$> table)
    ∧ NoDup (Sum <$> table)
    ∧ (∀ s, s ∈ Sum <$> table ↔ ∃ roll, outcome faces roll ∧ total roll = s)
    ∧ (∀ row, row ∈ table → 0 < Occurrences row).
Proof.
  intros Hvalid.
  destruct (process_dice_returns faces) as (m & _ & Hret).
  { apply generate_all_rolls_nonempty, Hvalid. }
  eexists _, _. split; [exact Hret|]. split_and!.
  - rewrite Sum_table_of. apply sorted_lt, NoDup_keys.
  - rewrite Sum_table_of, sorted_Permutation. apply NoDup_keys.
  - intros s. by rewrite Sum_table_of, elem_of_sorted, elem_of_keys_Counter, elem_of_all_sums.
  - intros row [Hkey ->]%elem_of_table_of.
    rewrite counter_get_Counter. apply occurrences_pos. by apply elem_of_keys_Counter.
Qed.

Lemma process_dice_table_sorted_by_sum_d6_d6 :
  ∃ table total_combinations,
    process_dice [6; 6] = Ok (table, total_combinations)
    ∧ StronglySorted Z.lt (Sum <$> table)
    ∧ NoDup (Sum <$> table)
    ∧ (∀ s, s ∈ Sum <$> table ↔ ∃ roll, outcome [6; 6] roll ∧ total roll = s)
    ∧ (∀ row, row ∈ table → 0 < Occurrences row).
Proof. apply (process_dice_table_sorted_by_sum [6; 6]). exact valid_d6_d6. Defined.

(** ** The achievable sums *)

Lemma outcome_total_bounds (faces roll : list Z) :
  outcome faces roll → n_dice faces ≤ total roll ≤ sum_faces faces.
Proof.
  unfold n_dice, total, sum_faces.
  induction 1 as [|F v faces roll Hv _ IH]; simpl length; simpl foldr; lia.
Qed.

Lemma outcome_exists (faces : list Z) (s : Z) :
  Forall (λ F, 1 ≤ F) faces →
  n_dice faces ≤ s ≤ sum_faces faces →
  ∃ roll, outcome faces roll ∧ total roll = s.
Proof.
  unfold n_dice, sum_faces. intros Hfaces. revert s.
  induction Hfaces as [|F faces HF Hfaces IH]; intros s Hs; simpl in Hs.
  - exists []. split; [constructor|]. unfold total. simpl. lia.
  - assert (Z.of_nat (length faces) ≤ foldr Z.add 0 faces) as Hle.
    { clear -Hfaces. induction Hfaces; simpl length; simpl foldr; lia. }
    pose (v := Z.max 1 (s - foldr Z.add 0 faces)).
    destruct (IH (s - v)) as (roll & Hroll & Htotal); [lia|].
    exists (v :: roll). split.
    + constructor; [lia|done].
    + unfold total in *. simpl. lia.
Qed.

(** C9.  For a non-empty list of face counts, each at least 1, the
    table has no gap: its sums are exactly the integers from the number
    of dice to the sum of the face counts, in order, so every integer
    in that interval has an entry and the table has
    [sum F_i - n + 1] entries. *)
Theorem process_dice_table_has_no_gaps (faces : list Z) :
  valid_dice faces →
  ∃ table total_combinations,
    process_dice faces = Ok (table, total_combinations)
    ∧ Sum <$> table = seqZ (n_dice faces) (sum_faces faces - n_dice faces + 1)
    ∧ (∀ s, n_dice faces ≤ s ≤ sum_faces faces →
            ∃ roll, outcome faces roll ∧ total roll = s)
    ∧ (∀ s, n_dice faces ≤ s ≤ sum_faces faces → ∃ row, row ∈ table ∧ Sum row = s)
    ∧ Z.of_nat (length table) = sum_faces faces - n_dice faces + 1.
Proof.
  intros Hvalid.
  destruct (process_dice_returns faces) as (m & _ & Hret).
  { apply generate_all_rolls_nonempty, Hvalid. }
  assert (n_dice faces ≤ sum_faces faces) as Hle.
  { destruct (outcome_exists faces (n_dice faces)) as (roll & Hroll & Ht);
      [apply Hvalid| |].
    - split; [lia|]. destruct Hvalid as [_ Hf]. unfold n_dice, sum_faces.
      clear -Hf. induction Hf; simpl length; simpl foldr; lia.
    - apply outcome_total_bounds in Hroll. lia. }
  assert (Sum <$> table_of (Counter (all_sums faces))
                   (Z.of_nat (length (generate_all_rolls faces))) m
          = seqZ (n_dice faces) (sum_faces faces - n_dice faces + 1)) as Hsums.
  { rewrite Sum_table_of. apply (StronglySorted_unique Z.le).
    - apply sorted_le.
    - apply StronglySorted_lt_le, seqZ_sorted.
    - rewrite sorted_Permutation. apply NoDup_Permutation.
      + apply NoDup_keys.
      + apply NoDup_seqZ.
      + intros s. rewrite elem_of_keys_Counter, elem_of_all_sums, elem_of_seqZ. split.
        * intros (roll & Hroll & <-). apply outcome_total_bounds in Hroll. lia.
        * intros Hs. apply outcome_exists; [apply Hvalid|lia]. }
  eexists _, _. split; [exact Hret|]. split_and!.
  - exact Hsums.
  - intros s Hs. by apply outcome_exists; [apply Hvalid|].
  - intros s Hs.
    assert (s ∈ Sum <$> table_of (Counter (all_sums faces))
                   (Z.of_nat (length (generate_all_rolls faces))) m) as Hin.
    { rewrite Hsums, elem_of_seqZ. lia. }
    apply list_elem_of_fmap in Hin as (row & -> & Hrow). by exists row.
  - rewrite <- (length_fmap Sum), Hsums, length_seqZ. lia.
Qed.

Lemma process_dice_table_has_no_gaps_d6_d6 :
  ∃ table total_combinations,
    process_dice [6; 6] = Ok (table, total_combinations)
    ∧ Sum <$> table = seqZ (n_dice [6; 6]) (sum_faces [6; 6] - n_dice [6; 6] + 1)
    ∧ (∀ s, n_dice [6; 6] ≤ s ≤ sum_faces [6; 6] →
            ∃ roll, outcome [6; 6] roll ∧ total roll = s)
    ∧ (∀ s, n_dice [6; 6] ≤ s ≤ sum_faces [6; 6] → ∃ row, row ∈ table ∧ Sum row = s)
    ∧ Z.of_nat (length table) = sum_faces [6; 6] - n_dice [6; 6] + 1.
Proof. apply (process_dice_table_has_no_gaps [6; 6]). exact valid_d6_d6. Defined.

(** ** The order of the dice does not matter *)

Lemma fmap_list_bind {A B C} (f : B → C) (g : A → list B) (l : list A) :
  f <$> (l ≫= g) = l ≫= (λ x, f <$> g x).
Proof.
  induction l as [|x l IH]; [done|]. by rewrite !bind_cons, fmap_app, IH.
Qed.

Lemma list_bind_nil_r {A B} (l : list A) : l ≫= (λ _, @nil B) = [].
Proof. induction l as [|x l IH]; [done|]. by rewrite bind_cons, IH. Qed.

Lemma list_bind_Permutation_ext {A B} (f g : A → list B) (l : list A) :
  (∀ x, f x ≡ₚ g x) → l ≫= f ≡ₚ l ≫= g.
Proof.
  intros Hfg. induction l as [|x l IH]; [done|].
  by rewrite !bind_cons, IH, Hfg.
Qed.

Lemma list_bind_app_r {A B} (f g : A → list B) (l : list A) :
  l ≫= (λ x, f x ++ g x) ≡ₚ (l ≫= f) ++ (l ≫= g).
Proof.
  induction l as [|x l IH]; [done|]. rewrite !bind_cons, IH.
  rewrite <- !app_assoc. apply Permutation_app_head.
  rewrite !app_assoc. apply Permutation_app_tail, Permutation_app_comm.
Qed.

Lemma list_bind_comm {A B C} (f : A → B → list C) (l1 : list A) (l2 : list B) :
  l1 ≫= (λ x, l2 ≫= f x) ≡ₚ l2 ≫= (λ y, l1 ≫= (λ x, f x y)).
Proof.
  induction l1 as [|x l1 IH].
  - simpl. by rewrite list_bind_nil_r.
  - rewrite bind_cons, IH, <- list_bind_app_r.
    apply list_bind_Permutation_ext. intros y. by rewrite bind_cons.
Qed.

Lemma all_sums_cons (F : Z) (faces : list Z) :
  all_sums (F :: faces) = v ← range 1 (F + 1); Z.add v <$> all_sums faces.
Proof.
  unfold all_sums. rewrite generate_all_rolls_cons, fmap_list_bind.
  apply list_bind_ext; [|done]. intros v.
  rewrite <- !list_fmap_compose. apply list_fmap_ext. intros i t _. simpl.
  rewrite !sum_total. done.
Qed.

Lemma all_sums_Permutation (faces1 faces2 : list Z) :
  faces1 ≡ₚ faces2 → all_sums faces1 ≡ₚ all_sums faces2.
Proof.
  induction 1 as [|F faces1 faces2 _ IH|F G faces|faces1 faces2 faces3 _ IH1 _ IH2].
  - done.
  - rewrite !all_sums_cons. apply list_bind_Permutation_ext. intros v. by rewrite IH.
  - rewrite !all_sums_cons.
    etransitivity; [|etransitivity; [apply (list_bind_comm
      (λ v w, (λ s, w + (v + s)) <$> all_sums faces))|]].
    + apply list_bind_Permutation_ext. intros v. rewrite fmap_list_bind.
      apply list_bind_Permutation_ext. intros w. rewrite <- list_fmap_compose.
      erewrite list_fmap_ext; [done|]. intros i s _. simpl. lia.
    + apply list_bind_Permutation_ext. intros w. rewrite fmap_list_bind.
      apply list_bind_Permutation_ext. intros v. by rewrite <- list_fmap_compose.
  - by rewrite IH1.
Qed.

(** C7.  For a non-empty list of face counts, each at least 1, and any
    permutation of it, [process_dice] returns on the permuted list the
    table and the total it returns on the list itself: the same rows
    (sum, probability, count and graph token) in the same order. *)
Theorem process_dice_order_irrelevant (faces faces' : list Z) :
  valid_dice faces →
  faces ≡ₚ faces' →
  ∃ table total_combinations,
    process_dice faces = Ok (table, total_combinations)
    ∧ process_dice faces' = Ok (table, total_combinations).
Proof.
  intros Hvalid Hperm.
  assert (Forall (λ F, 1 ≤ F) faces') as Hvalid' by (rewrite <- Hperm; apply Hvalid).
  destruct (process_dice_returns faces) as (m & Hm & Hret).
  { apply generate_all_rolls_nonempty, Hvalid. }
  destruct (process_dice_returns faces') as (m' & Hm' & Hret').
  { by apply generate_all_rolls_nonempty. }
  assert (Counter (all_sums faces') = Counter (all_sums faces)) as Hc.
  { apply Counter_Permutation. symmetry. by apply all_sums_Permutation. }
  assert (length (generate_all_rolls faces') = length (generate_all_rolls faces)) as Hlen.
  { rewrite <- (length_fmap sum (generate_all_rolls faces')),
            <- (length_fmap sum (generate_all_rolls faces)).
    apply Permutation_length. symmetry. by apply all_sums_Permutation. }
  rewrite Hc, Hlen in Hret'. rewrite Hc, Hm in Hm'. injection Hm' as <-.
  by eexists _, _.
Qed.

Lemma process_dice_order_irrelevant_d6_d8 :
  ∃ table total_combinations,
    process_dice [6; 8] = Ok (table, total_combinations)
    ∧ process_dice [8; 6] = Ok (table, total_combinations).
Proof.
  apply (process_dice_order_irrelevant [6; 8] [8; 6]).
  - split; [done|]. repeat constructor; lia.
  - apply perm_swap.
Defined.

(** ** [parse_args] *)

Lemma parse_args_loop_returns (args dice flags : list string) :
  parse_args_loop args dice flags
  = ([], Ok (dice ++ filter (λ arg, ¬ startswith arg "-") args,
             flags ++ filter (λ arg, startswith arg "-") args)).
Proof.
  revert dice flags. induction args as [|arg args IH]; intros dice flags.
  - simpl. by rewrite !filter_nil, !app_nil_r.
  - cbn [parse_args_loop]. rewrite !filter_cons.
    destruct (startswith arg "-") eqn:Harg.
    + unfold lift, append. cbn. rewrite IH. cbn.
      repeat case_decide; try naive_solver. by rewrite <- app_assoc.
    + unfold append. rewrite IH.
      repeat case_decide; try naive_solver. by rewrite <- app_assoc.
Qed.

(** C10.  For every argument list, [parse_args] prints nothing and
    returns: it raises nothing and does not exit, so the handler of
    [ValueError] never runs.  The flags it returns are the arguments
    that begin with ['-'], in their order, the dice are the other
    arguments, in their order, and every argument is in exactly one of
    the two lists. *)
Theorem parse_args_splits_arguments (args : list string) :
  let dice := filter (λ arg, ¬ startswith arg "-") args in
  let flags := filter (λ arg, startswith arg "-") args in
  parse_args args = ([], Ok (dice, flags))
  ∧ (∀ arg, arg ∈ args → (arg ∈ flags ∧ arg ∉ dice) ∨ (arg ∈ dice ∧ arg ∉ flags))
  ∧ (length dice + length flags = length args)%nat.
Proof.
  intros dice flags. split_and!.
  - unfold parse_args. by rewrite parse_args_loop_returns.
  - intros arg Harg. subst dice flags. rewrite !list_elem_of_filter.
    destruct (startswith arg "-"); simpl; tauto.
  - subst dice flags. induction args as [|arg args IH]; [done|].
    rewrite !filter_cons. destruct (startswith arg "-");
      repeat case_decide; try naive_solver; simpl; lia.
Qed.

(** ** [parse_die] *)

(** *** Lower case and the digits *)

Lemma lowercase_runs_clear : forallb run_clear lowercase_runs = true.
Proof. vm_compute. reflexivity. Qed.

Lemma decimal_Some (c v : Z) :
  decimal c = Some v → ∃ zero, In zero decimal_zeros ∧ zero ≤ c ≤ zero + 9 ∧ v = c - zero.
Proof.
  unfold decimal. destruct (find _ decimal_zeros) as [zero|] eqn:Hfind; [|done].
  intros [= <-]. apply find_some in Hfind as [Hin Hc]. exists zero.
  split_and!; [done|lia|lia|done].
Qed.

Lemma is_digit_decimal (c : Z) : is_digit c = true ↔ decimal_digit c.
Proof.
  unfold is_digit, decimal_digit. destruct (decimal c); split; done.
Qed.

Lemma run_clear_spec (c first last step delta : Z) :
  In (first, last, step, delta) lowercase_runs → first ≤ c ≤ last →
  decimal c = None ∧ decimal (c + delta) = None ∧ (c + delta = 0x64 → c = 0x44).
Proof.
  intros Hin Hc.
  pose proof (proj1 (forallb_forall _ _) lowercase_runs_clear _ Hin) as Hclear.
  cbn [run_clear] in Hclear. apply andb_true_iff in Hclear as [Hzeros Hd].
  rewrite forallb_forall in Hzeros. split_and!.
  - destruct (decimal c) as [v|] eqn:Hv; [|done].
    apply decimal_Some in Hv as (zero & Hzero & ? & _).
    specialize (Hzeros zero Hzero). lia.
  - destruct (decimal (c + delta)) as [v|] eqn:Hv; [|done].
    apply decimal_Some in Hv as (zero & Hzero & ? & _).
    specialize (Hzeros zero Hzero). lia.
  - lia.
Qed.

Lemma to_lower_full_cases (c : Z) :
  (c = 0x130 ∧ to_lower_full c = [0x69; 0x307])
  ∨ (∃ first last step delta,
        In (first, last, step, delta) lowercase_runs ∧ first ≤ c ≤ last
        ∧ to_lower_full c = [c + delta])
  ∨ (find (in_run c) lowercase_runs = None ∧ to_lower_full c = [c]).
Proof.
  unfold to_lower_full. destruct (Z.eqb_spec c 0x130) as [->|_]; [by left|right].
  destruct (find _ lowercase_runs) as [[[[first last] step] delta]|] eqn:Hfind.
  - left. apply find_some in Hfind as [Hin Hc]. exists first, last, step, delta.
    cbn [in_run] in Hc. split_and!; [done|lia|lia|done].
  - by right.
Qed.

Lemma lower_char_digit (before after : list Z) (c : Z) :
  decimal_digit c → lower_char before c after = [c].
Proof.
  intros [v Hv]. unfold lower_char.
  destruct (Z.eqb_spec c 0x3A3) as [->|_]; [by vm_compute in Hv|].
  destruct (to_lower_full_cases c) as [[-> _]|[(first & last & step & delta & Hin & Hc & _)|[_ ->]]].
  - by vm_compute in Hv.
  - destruct (run_clear_spec c first last step delta Hin Hc) as (Hnone & _). congruence.
  - done.
Qed.

Lemma lower_char_d (before after : list Z) (c : Z) :
  c = 0x64 ∨ c = 0x44 → lower_char before c after = [0x64].
Proof. by intros [-> | ->]. Qed.

Lemma lower_char_head (before after : list Z) (c h : Z) (t : list Z) :
  lower_char before c after = h :: t →
  (h = 0x64 → c = 0x64 ∨ c = 0x44) ∧ (decimal_digit h → t = [] ∧ h = c).
Proof.
  unfold lower_char. destruct (Z.eqb_spec c 0x3A3) as [->|_].
  { destruct (final_sigma before after); intros [= <- <-];
      (split; [done|intros [v Hv]; by vm_compute in Hv]). }
  destruct (to_lower_full_cases c) as [[-> ->]|[(first & last & step & delta & Hin & Hc & ->)|[_ ->]]];
    intros [= <- <-].
  - split; [done|intros [v Hv]; by vm_compute in Hv].
  - destruct (run_clear_spec c first last step delta Hin Hc) as (_ & Hnone & Hd).
    split; [auto|]. intros [v Hv]. congruence.
  - split; [auto|done].
Qed.

Lemma lower_from_digits (before ds : list Z) :
  Forall decimal_digit ds → lower_from before ds = ds.
Proof.
  intros Hds. revert before. induction Hds as [|c ds Hc _ IH]; intros before; [done|].
  cbn [lower_from]. by rewrite lower_char_digit, IH.
Qed.

Lemma forallb_is_digit (s : list Z) : forallb is_digit s = true ↔ Forall decimal_digit s.
Proof.
  induction s as [|c s IH]; simpl; [done|].
  by rewrite andb_true_iff, Forall_cons, IH, is_digit_decimal.
Qed.

Lemma lower_from_all_digits (before s : list Z) :
  Forall decimal_digit (lower_from before s) → lower_from before s = s.
Proof.
  revert before. induction s as [|c s IH]; intros before; [done|].
  cbn [lower_from]. destruct (lower_char before c s) as [|h t] eqn:Hchar.
  - simpl. unfold lower_char in Hchar. destruct (c =? 0x3A3); [done|].
    by destruct (to_lower_full_cases c)
      as [[_ H]|[(? & ? & ? & ? & _ & _ & H)|[_ H]]]; rewrite H in Hchar.
  - intros Hall. change ((h :: t) ++ ?l) with (h :: (t ++ l)) in *.
    apply Forall_cons in Hall as [Hh Hall].
    destruct (lower_char_head _ _ _ _ _ Hchar) as [_ Hdigit].
    destruct (Hdigit Hh) as [-> ->]. simpl in *. by rewrite IH.
Qed.

(** The pattern matches the lowered token exactly on the die tokens, and
    its group is their digits. *)
Lemma fullmatch_die_lower (token : string) (ds : list Z) :
  fullmatch_die (lower (code_points token)) = Some ds ↔ die_token token ds.
Proof.
  unfold die_token, lower. destruct (code_points token) as [|c s]; simpl.
  { split; [done|]. by intros [[?|?] _]. }
  destruct (lower_char [] c s) as [|h t] eqn:Hchar.
  { exfalso. unfold lower_char in Hchar. destruct (c =? 0x3A3); [done|].
    by destruct (to_lower_full_cases c)
      as [[_ H]|[(? & ? & ? & ? & _ & _ & H)|[_ H]]]; rewrite H in Hchar. }
  destruct (lower_char_head _ _ _ _ _ Hchar) as [Hd _].
  change ((h :: t) ++ ?l) with (h :: (t ++ l)). cbn [fullmatch_die].
  split.
  - destruct (Z.eqb_spec h 0x64) as [->|]; [|done]. simpl.
    case_bool_decide as Hnil; [done|]. simpl.
    destruct (forallb is_digit (t ++ lower_from [c] s)) eqn:Hall; [|done].
    intros [= <-]. apply forallb_is_digit in Hall.
    assert (t = []) as ->.
    { rewrite (lower_char_d [] s c (Hd eq_refl)) in Hchar. by injection Hchar. }
    cbn [app] in *. pose proof (lower_from_all_digits _ _ Hall) as Heq.
    rewrite Heq in Hall, Hnil. rewrite Heq.
    split_and!; [|done|done]. destruct (Hd eq_refl) as [->| ->]; auto.
  - intros (Hc & Hne & Hds).
    assert (s = ds) as -> by (destruct Hc as [[= _ ->]|[= _ ->]]; done).
    assert (c = 0x64 ∨ c = 0x44) as Hcd by (destruct Hc as [[= -> ]|[= ->]]; auto).
    rewrite (lower_char_d [] ds c Hcd) in Hchar. injection Hchar as <- <-.
    simpl. rewrite lower_from_digits by done.
    rewrite bool_decide_eq_false_2 by done. simpl.
    by rewrite (proj2 (forallb_is_digit ds) Hds).
Qed.

Lemma int_of_digits_from_value (ds : list Z) (acc : Z) :
  int_of_digits_from acc ds = acc * 10 ^ Z.of_nat (length ds) + decimal_value ds.
Proof.
  revert acc. induction ds as [|c ds IH]; intros acc.
  - simpl. lia.
  - cbn [int_of_digits_from decimal_value length]. rewrite IH.
    unfold digit_value. rewrite Nat2Z.inj_succ, Z.pow_succ_r by lia. lia.
Qed.

Lemma int_decimal_value (ds : list Z) :
  (length ds ≤ 4300)%nat → int ds = Ok (decimal_value ds).
Proof.
  intros Hlen. unfold int, int_max_str_digits.
  destruct (Z.ltb_spec 4300 (Z.of_nat (length ds))); [lia|].
  rewrite int_of_digits_from_value. f_equal.
Qed.

Lemma int_too_long (ds : list Z) :
  (4300 < length ds)%nat → int ds = Raise (ValueError (int_limit_message (length ds))).
Proof.
  intros Hlen. unfold int, int_max_str_digits.
  destruct (Z.ltb_spec 4300 (Z.of_nat (length ds))); [done|lia].
Qed.

Lemma parse_die_valid (token : string) (ds : list Z) :
  die_token token ds → (length ds ≤ 4300)%nat → 1 ≤ decimal_value ds →
  parse_die token = Ok (decimal_value ds).
Proof.
  intros Htoken Hlen Hvalue. unfold parse_die.
  apply fullmatch_die_lower in Htoken. rewrite Htoken, int_decimal_value by done.
  simpl. destruct (Z.ltb_spec (decimal_value ds) 1); [lia|done].
Qed.

Lemma parse_die_too_long (token : string) (ds : list Z) :
  die_token token ds → (4300 < length ds)%nat →
  parse_die token = Raise (ValueError (int_limit_message (length ds))).
Proof.
  intros Htoken Hlen. unfold parse_die.
  apply fullmatch_die_lower in Htoken. by rewrite Htoken, int_too_long.
Qed.

Lemma parse_die_invalid (token : string) :
  (¬ ∃ ds, die_token token ds ∧ ((4300 < length ds)%nat ∨ 1 ≤ decimal_value ds)) →
  parse_die token = Raise (invalid_die_format token).
Proof.
  intros Hnot. unfold parse_die, invalid_die_format.
  destruct (fullmatch_die (lower (code_points token))) as [ds|] eqn:Hmatch; [|done].
  apply fullmatch_die_lower in Hmatch.
  destruct (decide (length ds ≤ 4300)%nat) as [Hlen|Hlen].
  - rewrite int_decimal_value by done. simpl.
    destruct (Z.ltb_spec (decimal_value ds) 1); [done|].
    destruct Hnot. exists ds. auto.
  - destruct Hnot. exists ds. split; [done|left; lia].
Qed.

Lemma decimal_value_horner (ds : list Z) : decimal_value ds = int_of_digits_from 0 ds.
Proof. rewrite int_of_digits_from_value. lia. Qed.

(** C5, as the program has it.  On a token made of a [d], in either
    case, and one decimal digit or more, of ASCII or of another script,
    [parse_die] returns the value N of the digits when N is at least 1
    and the digits are 4300 at most; when they are more than 4300 it
    raises the error of [int], whatever their value.  On every other
    token it raises the error "Invalid die format: " followed by the
    token; so it does on [dabc], [d], [d0], [abc] and [d-1]. *)
Theorem parse_die_accepts_die_tokens_within_limit :
  (∀ token ds,
      die_token token ds → (length ds ≤ 4300)%nat → 1 ≤ decimal_value ds →
      parse_die token = Ok (decimal_value ds))
  ∧ (∀ token ds,
      die_token token ds → (4300 < length ds)%nat →
      parse_die token = Raise (ValueError (int_limit_message (length ds))))
  ∧ (∀ token,
      (¬ ∃ ds, die_token token ds ∧ ((4300 < length ds)%nat ∨ 1 ≤ decimal_value ds)) →
      parse_die token = Raise (ValueError ("Invalid die format: " +:+ token)))
  ∧ Forall (λ token, parse_die token = Raise (ValueError ("Invalid die format: " +:+ token)))
           ["dabc"; "d"; "d0"; "abc"; "d-1"]
  ∧ parse_die "d6" = Ok 6
  ∧ parse_die "D20" = Ok 20
  ∧ parse_die "d007" = Ok 7
  ∧ parse_die "d٣" = Ok 3.
Proof.
  split_and!.
  - apply parse_die_valid.
  - apply parse_die_too_long.
  - apply parse_die_invalid.
  - repeat constructor.
  - done.
  - done.
  - done.
  - done.
Qed.

Lemma parse_die_accepts_die_tokens_within_limit_d6_d0 :
  parse_die "d6" = Ok (decimal_value [0x36])
  ∧ parse_die "d0" = Raise (ValueError ("Invalid die format: " +:+ "d0")).
Proof.
  destruct parse_die_accepts_die_tokens_within_limit as (Hvalid & _ & Hinvalid & _).
  split.
  - apply (Hvalid "d6" [0x36]); [|simpl; lia|by vm_compute].
    split_and!; [by left|done|].
    constructor; [by eexists|constructor].
  - apply (Hinvalid "d0").
    intros (ds & ([H|H] & _ & _) & [Hlen|Hvalue]); vm_compute in H; simplify_eq.
    + simpl in Hlen. lia.
    + by vm_compute in Hvalue.
Defined.

(** C5, as the specification words it, fails in both directions.  The
    token [long_die_token] is a [d] and 4301 digits of ASCII whose
    value is 6, and [parse_die] raises the error of [int] on it:
    neither 6 nor "Invalid die format".  The token made of [d] and the
    Arabic-Indic digit three, U+0663, is not a [d] and digits of
    ASCII, and [parse_die] returns 3 on it. *)
Lemma parse_die_not_exactly_ascii_die_tokens :
  (∃ ds,
      die_token long_die_token ds
      ∧ Forall ascii_digit ds
      ∧ decimal_value ds = 6
      ∧ parse_die long_die_token
        = Raise (ValueError "Exceeds the limit (4300 digits) for integer string conversion: value has 4301 digits; use sys.set_int_max_str_digits() to increase the limit")
      ∧ parse_die long_die_token ≠ Ok (decimal_value ds))
  ∧ (parse_die "d٣" = Ok 3
     ∧ code_points "d٣" = [0x64; 0x663]
     ∧ ¬ ∃ ds, die_token "d٣" ds ∧ Forall ascii_digit ds).
Proof.
  split.
  - exists (replicate 4300 0x30 ++ [0x36]).
    assert (parse_die long_die_token
            = Raise (ValueError "Exceeds the limit (4300 digits) for integer string conversion: value has 4301 digits; use sys.set_int_max_str_digits() to increase the limit"))
      as Hraise by (vm_compute; reflexivity).
    split_and!.
    + split_and!.
      * left. vm_compute. reflexivity.
      * by intros [_ ?]%app_eq_nil.
      * apply forallb_is_digit. vm_compute. reflexivity.
    + apply Forall_app. split.
      * apply Forall_replicate. unfold ascii_digit. lia.
      * repeat constructor; unfold ascii_digit; lia.
    + rewrite decimal_value_horner. vm_compute. reflexivity.
    + exact Hraise.
    + rewrite Hraise. discriminate.
  - split_and!; [by vm_compute|by vm_compute|].
    intros (ds & ([H|H] & _ & _) & Hascii); vm_compute in H; simplify_eq.
    apply Forall_cons in Hascii as [Hc _]. unfold ascii_digit in Hc. lia.
Qed.

(** ** [get_graph_line] *)

Lemma str_mul_glyph_succ (k : nat) :
  String.concat "" (replicate (S k) "=") = String "=" (String.concat "" (replicate k "=")).
Proof. by destruct k. Qed.

Lemma length_str_mul_glyph (n : Z) : String.length (str_mul "=" n) = Z.to_nat n.
Proof.
  unfold str_mul. induction (Z.to_nat n) as [|k IH]; [done|].
  rewrite str_mul_glyph_succ. simpl. by rewrite IH.
Qed.

Lemma str_mul_glyph_run (n : Z) (c : ascii) :
  c ∈ list_ascii_of_string (str_mul "=" n) → c = "="%char.
Proof.
  unfold str_mul. induction (Z.to_nat n) as [|k IH].
  - intros H. by apply not_elem_of_nil in H.
  - rewrite str_mul_glyph_succ. simpl.
    intros [->|H]%elem_of_cons; [done|]. by apply IH.
Qed.

Lemma graph_length_agrees_sound (bound c m : Z) :
  graph_length_agrees bound = true →
  1 ≤ c ≤ m → 50 < m ≤ bound → graph_length c m = graph_length_exact c m.
Proof.
  intros Hall Hc Hm.
  unfold graph_length_agrees in Hall. rewrite forallb_forall in Hall.
  specialize (Hall m). rewrite forallb_forall in Hall.
  apply Z.eqb_eq, Hall.
  - apply list_elem_of_In, elem_of_seqZ. lia.
  - apply list_elem_of_In, elem_of_seqZ. lia.
Qed.

Lemma graph_length_agrees_200 : graph_length_agrees 200 = true.
Proof. vm_compute. reflexivity. Qed.

(** C4, as the program has it.  For counts [1 <= c <= m] the token is a
    run of ['='] whose length is [c] when [m <= 50] and, when [m > 50],
    the integer part of the double [(c / m) * 50 + 1]: the value is
    truncated, not rounded.  Up to [m = 200] that is
    [floor (50 c / m) + 1], except that it is 29 where [c / m = 29/50]. *)
Theorem get_graph_line_truncates (c m : Z) :
  1 ≤ c ≤ m →
  (∀ glyph, glyph ∈ list_ascii_of_string (get_graph_line c m) → glyph = "="%char)
  ∧ String.length (get_graph_line c m)
    = Z.to_nat (if m <=? 50 then c else graph_length c m)
  ∧ (50 < m ≤ 200 → graph_length c m = graph_length_exact c m).
Proof.
  intros Hc. unfold get_graph_line. fold (graph_length c m).
  destruct (Z.ltb_spec 50 m), (Z.leb_spec m 50); try lia.
  - split_and!; [apply str_mul_glyph_run|apply length_str_mul_glyph|].
    intros Hm. by apply (graph_length_agrees_sound 200 c m graph_length_agrees_200).
  - split_and!; [apply str_mul_glyph_run|apply length_str_mul_glyph|lia].
Qed.

Lemma get_graph_line_truncates_58_100 :
  (∀ glyph, glyph ∈ list_ascii_of_string (get_graph_line 58 100) → glyph = "="%char)
  ∧ String.length (get_graph_line 58 100)
    = Z.to_nat (if 100 <=? 50 then 58 else graph_length 58 100)
  ∧ (50 < 100 ≤ 200 → graph_length 58 100 = graph_length_exact 58 100).
Proof. apply (get_graph_line_truncates 58 100). lia. Defined.

(** C4, as the specification words it, fails: for a count of 1 under a
    largest count of 60 the token has one glyph, where
    [round (1/60 * 50) + 1] is 2. *)
Lemma get_graph_line_does_not_round :
  1 ≤ 1 ≤ 60
  ∧ get_graph_line 1 60 = "="
  ∧ claimed_graph_length 1 60 = 2
  ∧ String.length (get_graph_line 1 60) ≠ Z.to_nat (claimed_graph_length 1 60).
Proof. split_and!; [lia|lia|by vm_compute|by vm_compute|by vm_compute]. Qed.

(** ** Running [DiceOdds] *)

Lemma io_bind_ret_l {A B} (a : A) (f : A → IO B) : ([], Ok a) ≫= f = f a.
Proof. unfold mbind, io_bind. by destruct (f a). Qed.

Lemma io_bind_returns {A B} (m : IO A) (f : A → IO B) (out : list (output Row)) (a : A) :
  m = (out, Ok a) → m ≫= f = (out ++ (f a).1, (f a).2).
Proof. intros ->. unfold mbind, io_bind. by destruct (f a). Qed.

Lemma parse_die_at_least_1 (arg : string) (F : Z) : parse_die arg = Ok F → 1 ≤ F.
Proof.
  unfold parse_die. destruct (fullmatch_die (lower (code_points arg))) as [g|]; [|done].
  unfold int. destruct (int_max_str_digits <? _); [done|]. simpl.
  destruct (Z.ltb_spec (int_of_digits_from 0 g) 1); [done|]. intros [= <-]. done.
Qed.

Lemma mapM_parse_die_faces (dice : list string) (faces : list Z) :
  mapM parse_die dice = Ok faces →
  Forall (λ F, 1 ≤ F) faces ∧ length faces = length dice.
Proof.
  revert faces. induction dice as [|arg dice IH]; intros faces; simpl.
  - intros [= <-]. by split.
  - destruct (parse_die arg) as [F|] eqn:Harg; [|done]. simpl.
    destruct (mapM parse_die dice) as [faces'|]; [|done]. simpl.
    intros [= <-]. destruct (IH faces' eq_refl) as [Hall Hlen]. split.
    + constructor; [|done]. by eapply parse_die_at_least_1.
    + simpl. by rewrite Hlen.
Qed.

Lemma valid_invocation_dice (args : list string) (faces : list Z)
    (show_prob show_occurrences show_graph do_roll : bool) :
  valid_invocation args faces show_prob show_occurrences show_graph do_roll →
  valid_dice faces.
Proof.
  intros (dice & flags & _ & _ & Hdice & Hfaces).
  apply mapM_parse_die_faces in Hfaces as [Hall Hlen]. split; [|done].
  intros ->. by destruct dice.
Qed.

(** A valid invocation runs the three stages on the table and the
    total of [process_dice]. *)
Lemma DiceOdds_valid_run (randbelow : nat → nat) (sys_argv : list string)
    (args : option (list string))
    (faces : list Z) (show_prob show_occurrences show_graph do_roll : bool)
    (table : list Row) (total_combinations : Z) :
  valid_invocation (arguments sys_argv args) faces
                   show_prob show_occurrences show_graph do_roll →
  process_dice faces = Ok (table, total_combinations) →
  DiceOdds randbelow sys_argv args
  = (print "" ;;
     display show_prob show_occurrences show_graph table ;;
     report_total show_prob show_occurrences show_graph do_roll total_combinations ;;
     roll_dice randbelow do_roll faces).
Proof.
  intros (dice & flags & Hargs & Hflags & Hdice & Hfaces) Htable.
  assert (arguments sys_argv args ≠ []) as Hne.
  { intros Hnil. rewrite Hnil in Hargs. apply Hdice. cbv in Hargs. by injection Hargs. }
  unfold DiceOdds. fold (arguments sys_argv args).
  rewrite bool_decide_eq_false_2 by done.
  rewrite Hargs, io_bind_ret_l. cbn beta iota.
  rewrite Hflags, io_bind_ret_l. cbn beta iota.
  rewrite bool_decide_eq_false_2 by done.
  rewrite Hfaces. unfold mret at 1. unfold io_ret. rewrite io_bind_ret_l.
  rewrite Htable. unfold lift. rewrite io_bind_ret_l. cbn beta iota zeta.
  reflexivity.
Qed.

(** ** What the stages print *)

Lemma not_total_line_Table (columns : list string) (rows : list Row) :
  ¬ is_total_line (Table columns rows).
Proof. by intros [rest ?]. Qed.

Lemma not_total_line_empty : ¬ is_total_line (Text "").
Proof. by intros [rest ?]. Qed.

Lemma not_total_line_roll (s : string) : ¬ is_total_line (Text ("Your Roll is: " +:+ s)).
Proof. by intros [rest ?]. Qed.

Lemma not_total_line_graph (s : string) : ¬ is_total_line (Text ("Sums " +:+ s)).
Proof. by intros [rest ?]. Qed.

Lemma string_app_assoc (a b c : string) : (a +:+ b) +:+ c = a +:+ (b +:+ c).
Proof.
  induction a as [|x a IH]; [done|].
  change (String x ((a +:+ b) +:+ c) = String x (a +:+ (b +:+ c))). by rewrite IH.
Qed.

Lemma string_app_nil_r (a : string) : a +:+ "" = a.
Proof.
  induction a as [|x a IH]; [done|].
  change (String x (a +:+ "") = String x a). by rewrite IH.
Qed.

(** A loop that only appends keeps what it started from. *)
Lemma fold_left_appends {A} (step : string → A → string) (l : list A) (start : string) :
  (∀ text x, ∃ tail, step text x = text +:+ tail) →
  ∃ tail, fold_left step l start = start +:+ tail.
Proof.
  intros Hstep. revert start. induction l as [|x l IH]; intros start.
  - exists "". by rewrite string_app_nil_r.
  - cbn [fold_left]. destruct (Hstep start x) as [tail1 ->].
    destruct (IH (start +:+ tail1)) as [tail2 ->].
    exists (tail1 +:+ tail2). apply string_app_assoc.
Qed.

Lemma print_graph_returns (df : list Row) :
  df ≠ [] → ∃ tail, print_graph df = ([Text ("Sums " +:+ tail)], Ok tt).
Proof.
  intros Hdf. unfold print_graph. destruct df as [|row df]; [done|].
  cbn [fmap list_fmap column_max]. unfold lift. rewrite !io_bind_ret_l.
  match goal with
  | |- ∃ tail, print (fold_left ?step _ ?start) = _ =>
      destruct (fold_left_appends step (row :: df) start) as [tail ->]
  end.
  - intros graph r. eexists. reflexivity.
  - eexists. unfold print. rewrite string_app_assoc. reflexivity.
Qed.

Lemma display_returns (show_prob show_occurrences show_graph : bool) (df : list Row) :
  df ≠ [] →
  ∃ out, display show_prob show_occurrences show_graph df = (out, Ok tt)
         ∧ ∀ o, o ∈ out → ¬ is_total_line o.
Proof.
  intros Hdf. destruct (print_graph_returns df Hdf) as [tail Hgraph].
  unfold display.
  destruct show_prob, show_occurrences, show_graph; cbn [andb];
    try (eexists; split; [reflexivity|];
         intros o Ho; repeat (apply elem_of_cons in Ho as [->|Ho]);
         [apply not_total_line_Table|apply not_total_line_empty|
          by apply not_elem_of_nil in Ho]).
  - rewrite (io_bind_returns _ _ _ _ Hgraph). eexists; split; [reflexivity|].
    intros o Ho. simpl in Ho. repeat (apply elem_of_cons in Ho as [->|Ho]).
    + apply not_total_line_graph.
    + apply not_total_line_empty.
    + by apply not_elem_of_nil in Ho.
  - exists []. split; [done|]. intros o Ho. by apply not_elem_of_nil in Ho.
Qed.

Lemma roll_dice_prints (randbelow : nat → nat) (do_roll : bool) (faces : list Z) (o : output Row) :
  o ∈ (roll_dice randbelow do_roll faces).1 → ¬ is_total_line o.
Proof.
  unfold roll_dice. destruct do_roll; [|by intros ?%not_elem_of_nil].
  unfold lift. destruct (choice randbelow (generate_all_rolls faces)) as [chosen|e].
  - rewrite io_bind_ret_l. simpl. intros Ho.
    repeat (apply elem_of_cons in Ho as [->|Ho]).
    + apply not_total_line_roll.
    + apply not_total_line_empty.
    + by apply not_elem_of_nil in Ho.
  - simpl. by intros ?%not_elem_of_nil.
Qed.

Lemma process_dice_table_nonempty (faces : list Z) (table : list Row) (T : Z) :
  process_dice faces = Ok (table, T) → table ≠ [].
Proof.
  unfold process_dice. fold (all_sums faces).
  destruct (max (values (Counter (all_sums faces)))) as [m|] eqn:Hmax; [|done].
  simpl. intros [= <- _] Hnil. apply fmap_nil_inv in Hnil.
  assert (keys (Counter (all_sums faces)) = []) as Hkeys.
  { apply Permutation_nil_r. rewrite <- Hnil. symmetry. apply sorted_Permutation. }
  rewrite values_keys, Hkeys in Hmax. done.
Qed.

Lemma process_dice_valid (faces : list Z) :
  valid_dice faces → ∃ table, process_dice faces = Ok (table, prod_faces faces).
Proof.
  intros Hvalid.
  destruct (process_dice_returns faces) as (m & _ & Hret).
  { apply generate_all_rolls_nonempty, Hvalid. }
  rewrite length_generate_all_rolls in Hret by by apply valid_dice_nonneg.
  by eexists.
Qed.

Lemma report_total_returns (show_prob show_occurrences show_graph do_roll : bool) (T : Z) :
  report_total show_prob show_occurrences show_graph do_roll T
  = (if negb do_roll || show_graph || show_occurrences || show_prob
     then [Text ("Total combinations: " +:+ str T); Text ""] else [],
     Ok tt).
Proof.
  unfold report_total.
  by destruct (negb do_roll || show_graph || show_occurrences || show_prob).
Qed.

(** The output of a valid invocation: an empty line, the display, the
    line of the total when it is due, and the roll. *)
Lemma DiceOdds_output (randbelow : nat → nat) (sys_argv : list string)
    (args : option (list string))
    (faces : list Z) (show_prob show_occurrences show_graph do_roll : bool) :
  valid_invocation (arguments sys_argv args) faces
                   show_prob show_occurrences show_graph do_roll →
  ∃ shown,
    (∀ o, o ∈ shown → ¬ is_total_line o)
    ∧ DiceOdds randbelow sys_argv args
      = ([Text ""] ++ shown
         ++ (if negb do_roll || show_graph || show_occurrences || show_prob
             then [Text ("Total combinations: " +:+ str (prod_faces faces)); Text ""]
             else [])
         ++ (roll_dice randbelow do_roll faces).1,
         (roll_dice randbelow do_roll faces).2).
Proof.
  intros Hvalid.
  destruct (process_dice_valid faces) as [table Htable];
    [by eapply valid_invocation_dice|].
  destruct (display_returns show_prob show_occurrences show_graph table)
    as (shown & Hshown & Hnot); [by eapply process_dice_table_nonempty|].
  exists shown. split; [done|].
  rewrite (DiceOdds_valid_run _ _ _ _ _ _ _ _ _ _ Hvalid Htable).
  rewrite (io_bind_returns (print "") _ [Text ""] tt eq_refl).
  rewrite (io_bind_returns _ _ _ _ Hshown).
  rewrite (io_bind_returns _ _ _ _ (report_total_returns _ _ _ _ _)).
  reflexivity.
Qed.

Lemma choice_returns {A} (randbelow : nat → nat) (seq : list A) :
  (∀ n, (0 < n)%nat → (randbelow n < n)%nat) →
  seq ≠ [] → ∃ x, choice randbelow seq = Ok x ∧ x ∈ seq.
Proof.
  intros Hbelow Hseq. unfold choice. destruct seq as [|y seq]; [done|].
  destruct (lookup_lt_is_Some_2 (y :: seq) (randbelow (length (y :: seq)))) as [x Hx].
  { apply Hbelow. simpl. lia. }
  rewrite Hx. exists x. split; [done|]. by eapply list_elem_of_lookup_2.
Qed.

Section DiceOdds_properties.
Variable randbelow : nat → nat.
Variable sys_argv : list string.

(** C6.  In a valid invocation that is not a request for help, the
    line "Total combinations: T" is printed exactly when no roll was
    asked for or one of the three displays was; it then carries the
    product of the face counts.  An invocation that only asks for a
    roll prints no such line. *)
Theorem total_line_printed_iff (args : option (list string)) (faces : list Z)
    (show_prob show_occurrences show_graph do_roll : bool) :
  valid_invocation (arguments sys_argv args) faces
                   show_prob show_occurrences show_graph do_roll →
  let out := (DiceOdds randbelow sys_argv args).1 in
  ((∃ o, o ∈ out ∧ is_total_line o)
   ↔ (do_roll = false ∨ show_prob = true ∨ show_occurrences = true ∨ show_graph = true))
  ∧ (do_roll = false ∨ show_prob = true ∨ show_occurrences = true ∨ show_graph = true →
     Text ("Total combinations: " +:+ str (prod_faces faces)) ∈ out)
  ∧ (do_roll = true ∧ show_prob = false ∧ show_occurrences = false ∧ show_graph = false →
     ∀ o, o ∈ out → ¬ is_total_line o).
Proof.
  intros Hvalid out.
  destruct (DiceOdds_output randbelow sys_argv _ _ _ _ _ _ Hvalid) as (shown & Hshown & Hrun).
  subst out. rewrite Hrun. cbn [fst].
  pose proof (roll_dice_prints randbelow do_roll faces) as Hroll.
  assert (do_roll = true ∧ show_prob = false ∧ show_occurrences = false ∧ show_graph = false →
          ∀ o, o ∈ [Text ""] ++ shown
                   ++ (if negb do_roll || show_graph || show_occurrences || show_prob
                       then [Text ("Total combinations: " +:+ str (prod_faces faces)); Text ""]
                       else [])
                   ++ (roll_dice randbelow do_roll faces).1 → ¬ is_total_line o) as Hnone.
  { intros (-> & -> & -> & ->) o. cbn [negb orb]. rewrite !elem_of_app, elem_of_nil.
    intros [Ho|[Ho|[[]|Ho]]]; [|by apply Hshown|by apply Hroll].
    apply list_elem_of_singleton in Ho as ->. apply not_total_line_empty. }
  assert (do_roll = false ∨ show_prob = true ∨ show_occurrences = true ∨ show_graph = true →
          negb do_roll || show_graph || show_occurrences || show_prob = true) as Hcond.
  { intros [H|[H|[H|H]]]; rewrite H; cbn [negb orb];
      by rewrite ?orb_true_r. }
  split_and!; [split| |done].
  - intros (o & Ho & Htotal).
    destruct do_roll; [|by left].
    destruct show_prob; [by right; left|].
    destruct show_occurrences; [by right; right; left|].
    destruct show_graph; [by right; right; right|].
    exfalso. by apply (Hnone (conj eq_refl (conj eq_refl (conj eq_refl eq_refl))) o Ho).
  - intros Hdue. rewrite (Hcond Hdue).
    exists (Text ("Total combinations: " +:+ str (prod_faces faces))). split.
    + rewrite !elem_of_app. right. right. left. left.
    + by eexists.
  - intros Hdue. rewrite (Hcond Hdue).
    rewrite !elem_of_app. right. right. left. left.
Qed.

(** The random source answers below the number it is asked for. *)
Hypothesis randbelow_below : ∀ n, (0 < n)%nat → (randbelow n < n)%nat.

Lemma roll_dice_returns (faces : list Z) :
  valid_dice faces →
  ∃ roll,
    outcome faces roll
    ∧ roll_dice randbelow true faces
      = ([Text ("Your Roll is: " +:+ str (total roll)); Text ""], Ok tt).
Proof.
  intros Hvalid.
  destruct (choice_returns randbelow (generate_all_rolls faces) randbelow_below)
    as (roll & Hchoice & Hroll); [apply generate_all_rolls_nonempty, Hvalid|].
  exists roll. split; [by apply elem_of_generate_all_rolls|].
  unfold roll_dice, lift. rewrite Hchoice, io_bind_ret_l, sum_total. reflexivity.
Qed.

(** C8.  Whatever the random source answers, a valid invocation that
    asks for a roll ends by printing "Your Roll is: R", where R is the
    sum of an outcome of the dice set, hence between the number of dice
    and the sum of the face counts.  For a single [d4] with the flag
    [-r] alone, that line is all that is printed besides the empty
    lines, and R is between 1 and 4. *)
Theorem roll_is_sum_of_an_outcome :
  (∀ (args : option (list string)) (faces : list Z)
     (show_prob show_occurrences show_graph : bool),
      valid_invocation (arguments sys_argv args) faces
                       show_prob show_occurrences show_graph true →
      ∃ roll before,
        outcome faces roll
        ∧ n_dice faces ≤ total roll ≤ sum_faces faces
        ∧ DiceOdds randbelow sys_argv args
          = (before ++ [Text ("Your Roll is: " +:+ str (total roll)); Text ""], Ok tt))
  ∧ (∃ R,
        1 ≤ R ≤ 4
        ∧ DiceOdds randbelow sys_argv (Some ["d4"; "-r"])
          = ([Text ""; Text ("Your Roll is: " +:+ str R); Text ""], Ok tt)).
Proof.
  split.
  - intros args faces show_prob show_occurrences show_graph Hvalid.
    destruct (DiceOdds_output randbelow sys_argv _ _ _ _ _ _ Hvalid)
      as (shown & _ & Hrun).
    destruct (roll_dice_returns faces) as (roll & Hroll & Hprint);
      [by eapply valid_invocation_dice|].
    exists roll. eexists. split; [done|]. split; [by apply outcome_total_bounds|].
    rewrite Hrun, Hprint. cbn [fst snd]. by rewrite !app_assoc.
  - destruct (roll_dice_returns [4]) as (roll & Hroll & Hprint).
    { split; [done|]. repeat constructor; lia. }
    exists (total roll). split.
    + apply outcome_total_bounds in Hroll. unfold n_dice, sum_faces in Hroll.
      simpl in Hroll. lia.
    + assert (valid_invocation ["d4"; "-r"] [4] false false false true) as Hvalid.
      { exists ["d4"], ["-r"]. split_and!; [by vm_compute|by vm_compute|done|by vm_compute]. }
      assert (process_dice [4]
              = Ok (table_of (Counter (all_sums [4])) 4 1, 4)) as Htable by by vm_compute.
      rewrite (DiceOdds_valid_run _ _ (Some ["d4"; "-r"]) _ _ _ _ _ _ _ Hvalid Htable), Hprint.
      reflexivity.
Qed.

End DiceOdds_properties.

Lemma total_line_printed_iff_d4_roll :
  let out := (DiceOdds (λ _, 0%nat) [] (Some ["d4"; "-r"])).1 in
  ((∃ o, o ∈ out ∧ is_total_line o)
   ↔ (true = false ∨ false = true ∨ false = true ∨ false = true))
  ∧ (true = false ∨ false = true ∨ false = true ∨ false = true →
     Text ("Total combinations: " +:+ str (prod_faces [4])) ∈ out)
  ∧ (true = true ∧ false = false ∧ false = false ∧ false = false →
     ∀ o, o ∈ out → ¬ is_total_line o).
Proof.
  apply (total_line_printed_iff (λ _, 0%nat) [] (Some ["d4"; "-r"]) [4]
           false false false true).
  exists ["d4"], ["-r"]. split_and!; [by vm_compute|by vm_compute|done|by vm_compute].
Defined.

Lemma roll_is_sum_of_an_outcome_first_index :
  (∀ (args : option (list string)) (faces : list Z)
     (show_prob show_occurrences show_graph : bool),
      valid_invocation (arguments [] args) faces
                       show_prob show_occurrences show_graph true →
      ∃ roll before,
        outcome faces roll
        ∧ n_dice faces ≤ total roll ≤ sum_faces faces
        ∧ DiceOdds (λ _, 0%nat) [] args
          = (before ++ [Text ("Your Roll is: " +:+ str (total roll)); Text ""], Ok tt))
  ∧ (∃ R,
        1 ≤ R ≤ 4
        ∧ DiceOdds (λ _, 0%nat) [] (Some ["d4"; "-r"])
          = ([Text ""; Text ("Your Roll is: " +:+ str R); Text ""], Ok tt)).
Proof. apply (roll_is_sum_of_an_outcome (λ _, 0%nat) []). intros n Hn. exact Hn. Defined.

(* ================================================================== *)
(** * Part 5: further properties of the program                        *)
(* ================================================================== *)

(** ** [process_flags] *)

(** A closed decidable statement, by evaluation. *)
Ltac by_evaluation :=
  match goal with |- ?P => apply (bool_decide_unpack P); vm_compute; exact I end.

Lemma contains_elem_of (x : string) (l : list string) : contains x l = true ↔ x ∈ l.
Proof. unfold contains. apply bool_decide_eq_true. Qed.

Lemma contains_not_elem_of (x : string) (l : list string) : contains x l = false ↔ x ∉ l.
Proof. unfold contains. apply bool_decide_eq_false. Qed.

Lemma process_flags_loop_known (flags : list string) :
  Forall (λ flag, flag ∈ flag_args) flags → process_flags_loop flags = ([], Ok tt).
Proof.
  induction 1 as [|flag flags Hflag _ IH]; [done|].
  cbn [process_flags_loop]. apply contains_elem_of in Hflag. by rewrite Hflag.
Qed.

Lemma process_flags_loop_unknown (known rest : list string) (flag : string) :
  Forall (λ flag, flag ∈ flag_args) known → flag ∉ flag_args →
  process_flags_loop (known ++ flag :: rest)
  = ([Text ("Invalid flag: " +:+ flag)], Raise (SystemExit 1)).
Proof.
  intros Hknown Hflag. induction Hknown as [|k known Hk _ IH]; cbn [app process_flags_loop].
  - apply contains_not_elem_of in Hflag. by rewrite Hflag.
  - apply contains_elem_of in Hk. by rewrite Hk.
Qed.

Lemma help_not_a_flag (flags : list string) :
  Forall (λ flag, flag ∈ flag_args) flags → contains "help" flags = false.
Proof.
  intros Hknown. apply contains_not_elem_of. intros Hin.
  rewrite Forall_forall in Hknown. specialize (Hknown _ Hin).
  assert ("help" ∉ flag_args) as Hnot by by_evaluation. done.
Qed.

(** The answer of [process_flags] on known flags, in one equation. *)
Lemma process_flags_known (flags : list string) :
  Forall (λ flag, flag ∈ flag_args) flags →
  process_flags flags
  = if contains "-h" flags || contains "--help" flags
       || (negb (contains "-p" flags || contains "--prob" flags)
           && negb (contains "-o" flags || contains "--occ" flags)
           && negb (contains "-g" flags || contains "--graph" flags)
           && negb (contains "-r" flags || contains "--roll" flags))
    then (help_text, Ok (false, false, false, false, true))
    else ([], Ok (contains "-p" flags || contains "--prob" flags,
                  contains "-o" flags || contains "--occ" flags,
                  contains "-g" flags || contains "--graph" flags,
                  contains "-r" flags || contains "--roll" flags, false)).
Proof.
  intros Hknown. unfold process_flags.
  rewrite (process_flags_loop_known flags Hknown), io_bind_ret_l.
  rewrite (help_not_a_flag flags Hknown), orb_false_r.
  destruct (contains "-h" flags || contains "--help" flags
            || (negb (contains "-p" flags || contains "--prob" flags)
                && negb (contains "-o" flags || contains "--occ" flags)
                && negb (contains "-g" flags || contains "--graph" flags)
                && negb (contains "-r" flags || contains "--roll" flags))) eqn:Hhelp;
    reflexivity.
Qed.

Lemma asks_help_decide (flags : list string) :
  contains "-h" flags || contains "--help" flags
  || (negb (contains "-p" flags || contains "--prob" flags)
      && negb (contains "-o" flags || contains "--occ" flags)
      && negb (contains "-g" flags || contains "--graph" flags)
      && negb (contains "-r" flags || contains "--roll" flags)) = true
  ↔ asks_help flags.
Proof.
  unfold asks_help, asks_action.
  rewrite !orb_true_iff, !andb_true_iff, !negb_true_iff, !orb_false_iff,
          !contains_elem_of, !contains_not_elem_of.
  tauto.
Qed.

(** X1.  A flag that is not one of the ten known ones makes
    [process_flags] print "Invalid flag: " and the first such flag, and
    exit with status 1: no help is shown, whatever the other flags. *)
Theorem process_flags_rejects_unknown_flag (known rest : list string) (flag : string) :
  Forall (λ flag, flag ∈ flag_args) known →
  flag ∉ flag_args →
  process_flags (known ++ flag :: rest)
  = ([Text ("Invalid flag: " +:+ flag)], Raise (SystemExit 1)).
Proof.
  intros Hknown Hflag. unfold process_flags.
  by rewrite (process_flags_loop_unknown known rest flag Hknown Hflag).
Qed.

Lemma process_flags_rejects_unknown_flag_x :
  process_flags (["-p"] ++ "-x" :: ["-h"; "-y"])
  = ([Text ("Invalid flag: " +:+ "-x")], Raise (SystemExit 1)).
Proof.
  apply (process_flags_rejects_unknown_flag ["-p"] ["-h"; "-y"] "-x"); by_evaluation.
Defined.

(** X2.  On known flags [process_flags] returns, in one of two ways.
    When a flag asks for help or none asks for an action it prints the
    help and answers that help was shown and nothing else is to be
    done, even if actions were asked for.  Otherwise it prints nothing,
    the four answers say which of [-p/--prob], [-o/--occ],
    [-g/--graph], [-r/--roll] are present, and one of them is true. *)
Theorem process_flags_help_or_actions (flags : list string) :
  Forall (λ flag, flag ∈ flag_args) flags →
  (asks_help flags ∧
   process_flags flags = (help_text, Ok (false, false, false, false, true)))
  ∨ (¬ asks_help flags ∧
     ∃ show_prob show_occurrences show_graph do_roll : bool,
       process_flags flags
       = ([], Ok (show_prob, show_occurrences, show_graph, do_roll, false))
       ∧ (show_prob = true ↔ "-p" ∈ flags ∨ "--prob" ∈ flags)
       ∧ (show_occurrences = true ↔ "-o" ∈ flags ∨ "--occ" ∈ flags)
       ∧ (show_graph = true ↔ "-g" ∈ flags ∨ "--graph" ∈ flags)
       ∧ (do_roll = true ↔ "-r" ∈ flags ∨ "--roll" ∈ flags)
       ∧ show_prob || show_occurrences || show_graph || do_roll = true).
Proof.
  intros Hknown. rewrite (process_flags_known flags Hknown).
  pose proof (asks_help_decide flags) as Hhelp.
  destruct (contains "-h" flags || contains "--help" flags
            || (negb (contains "-p" flags || contains "--prob" flags)
                && negb (contains "-o" flags || contains "--occ" flags)
                && negb (contains "-g" flags || contains "--graph" flags)
                && negb (contains "-r" flags || contains "--roll" flags))) eqn:Hb.
  - left. split; [by apply Hhelp|done].
  - right. split; [intros H; apply Hhelp in H; done|].
    eexists _, _, _, _. split; [reflexivity|].
    split_and!; try (by rewrite !orb_true_iff, !contains_elem_of).
    apply orb_false_iff in Hb as [_ Hb].
    destruct (contains "-p" flags || contains "--prob" flags),
             (contains "-o" flags || contains "--occ" flags),
             (contains "-g" flags || contains "--graph" flags),
             (contains "-r" flags || contains "--roll" flags); simpl in *;
      try discriminate; auto.
Qed.

Lemma process_flags_help_or_actions_p_r :
  (asks_help ["-p"; "--roll"] ∧
   process_flags ["-p"; "--roll"] = (help_text, Ok (false, false, false, false, true)))
  ∨ (¬ asks_help ["-p"; "--roll"] ∧
     ∃ show_prob show_occurrences show_graph do_roll : bool,
       process_flags ["-p"; "--roll"]
       = ([], Ok (show_prob, show_occurrences, show_graph, do_roll, false))
       ∧ (show_prob = true ↔ "-p" ∈ ["-p"; "--roll"] ∨ "--prob" ∈ ["-p"; "--roll"])
       ∧ (show_occurrences = true ↔ "-o" ∈ ["-p"; "--roll"] ∨ "--occ" ∈ ["-p"; "--roll"])
       ∧ (show_graph = true ↔ "-g" ∈ ["-p"; "--roll"] ∨ "--graph" ∈ ["-p"; "--roll"])
       ∧ (do_roll = true ↔ "-r" ∈ ["-p"; "--roll"] ∨ "--roll" ∈ ["-p"; "--roll"])
       ∧ show_prob || show_occurrences || show_graph || do_roll = true).
Proof.
  apply (process_flags_help_or_actions ["-p"; "--roll"]). by_evaluation.
Defined.

(** X3.  On known flags the answer of [process_flags] depends only on
    which flags are present: their order and their repetitions do not
    matter. *)
Theorem process_flags_order_irrelevant (flags flags' : list string) :
  Forall (λ flag, flag ∈ flag_args) flags →
  (∀ flag, flag ∈ flags ↔ flag ∈ flags') →
  process_flags flags' = process_flags flags.
Proof.
  intros Hknown Hsame.
  assert (Forall (λ flag, flag ∈ flag_args) flags') as Hknown'.
  { rewrite Forall_forall in *. intros flag Hflag. by apply Hknown, Hsame. }
  assert (∀ x, contains x flags' = contains x flags) as Hcontains.
  { intros x. unfold contains. apply bool_decide_ext. by rewrite Hsame. }
  rewrite (process_flags_known flags Hknown), (process_flags_known flags' Hknown').
  by rewrite !Hcontains.
Qed.

Lemma process_flags_order_irrelevant_g_o :
  process_flags ["-o"; "-g"; "-o"] = process_flags ["-g"; "-o"].
Proof.
  apply (process_flags_order_irrelevant ["-g"; "-o"] ["-o"; "-g"; "-o"]).
  - by_evaluation.
  - intros flag. rewrite !elem_of_cons, !elem_of_nil. tauto.
Defined.

(** ** The ways [DiceOdds] ends *)

Lemma parse_args_returns (args : list string) :
  parse_args args = ([], Ok (dice_of args, flags_of args)).
Proof. unfold parse_args. by rewrite parse_args_loop_returns. Qed.

(** [parse_die] returns a number, or raises the error of a token it
    does not accept or the error of [int] on a group that is too long:
    a [ValueError] in both cases. *)
Lemma parse_die_cases (token : string) :
  (∃ N, parse_die token = Ok N)
  ∨ parse_die token = Raise (invalid_die_format token)
  ∨ (∃ ds, die_token token ds ∧ (4300 < length ds)%nat
           ∧ parse_die token = Raise (ValueError (int_limit_message (length ds)))).
Proof.
  destruct (fullmatch_die (lower (code_points token))) as [ds|] eqn:Hmatch.
  - apply fullmatch_die_lower in Hmatch.
    destruct (decide (length ds ≤ 4300)%nat) as [Hlen|Hlen].
    + destruct (decide (1 ≤ decimal_value ds)) as [Hvalue|Hvalue].
      * left. eexists. by apply parse_die_valid.
      * right; left. unfold parse_die.
        apply fullmatch_die_lower in Hmatch. rewrite Hmatch, int_decimal_value by done.
        simpl. by destruct (Z.ltb_spec (decimal_value ds) 1); [|lia].
    + right; right. exists ds. split_and!; [done|lia|]. apply parse_die_too_long; [done|lia].
  - right; left. unfold parse_die. by rewrite Hmatch.
Qed.

Lemma parse_die_raises_ValueError (token : string) :
  (¬ ∃ N, parse_die token = Ok N) → ∃ message, parse_die token = Raise (ValueError message).
Proof.
  intros Hnot. destruct (parse_die_cases token) as [H|[H|(ds & _ & _ & H)]];
    [done|by eexists|by eexists].
Qed.



(** [DiceOdds] once it has arguments: the flags decide what follows. *)
Lemma DiceOdds_with_arguments (randbelow : nat → nat) (sys_argv : list string)
    (args : option (list string)) :
  arguments sys_argv args ≠ [] →
  DiceOdds randbelow sys_argv args
  = ('(show_prob, show_occurrences, show_graph, do_roll, show_help) ←
       process_flags (flags_of (arguments sys_argv args));
     if show_help : bool then pass else
     if bool_decide (dice_of (arguments sys_argv args) = []) then
       print "Error: No dice specified." ;; sys_exit 1
     else
     dice_faces ←
       match mapM parse_die (dice_of (arguments sys_argv args)) with
       | Ok dice_faces => mret dice_faces
       | Raise (ValueError e) => print e ;; sys_exit 1
       | Raise e => raise e
       end;
     '(results, total_combinations) ← lift (process_dice dice_faces);
     print "" ;;
     display show_prob show_occurrences show_graph results ;;
     report_total show_prob show_occurrences show_graph do_roll total_combinations ;;
     roll_dice randbelow do_roll dice_faces).
Proof.
  intros Hne. unfold DiceOdds. fold (arguments sys_argv args).
  rewrite bool_decide_eq_false_2 by done.
  rewrite parse_args_returns, io_bind_ret_l. reflexivity.
Qed.

Lemma flags_of_nonempty (args : list string) : flags_of args ≠ [] → args ≠ [].
Proof. by intros H ->. Qed.


Lemma process_flags_asks_help (flags : list string) :
  Forall (λ flag, flag ∈ flag_args) flags → asks_help flags →
  process_flags flags = (help_text, Ok (false, false, false, false, true)).
Proof.
  intros Hknown Hhelp. rewrite (process_flags_known flags Hknown).
  apply asks_help_decide in Hhelp. by rewrite Hhelp.
Qed.

Lemma process_flags_asks_actions (flags : list string) :
  Forall (λ flag, flag ∈ flag_args) flags → ¬ asks_help flags →
  ∃ show_prob show_occurrences show_graph do_roll : bool,
    process_flags flags
    = ([], Ok (show_prob, show_occurrences, show_graph, do_roll, false)).
Proof.
  intros Hknown Hhelp. rewrite (process_flags_known flags Hknown).
  destruct (contains "-h" flags || contains "--help" flags
            || (negb (contains "-p" flags || contains "--prob" flags)
                && negb (contains "-o" flags || contains "--occ" flags)
                && negb (contains "-g" flags || contains "--graph" flags)
                && negb (contains "-r" flags || contains "--roll" flags))) eqn:Hb.
  - destruct Hhelp. by apply asks_help_decide.
  - by eexists _, _, _, _.
Qed.

Section DiceOdds_endings.
Variable randbelow : nat → nat.
Variable sys_argv : list string.
Variable args : option (list string).

(** X4.  An unknown flag among the arguments makes [DiceOdds] print
    "Invalid flag: " and the first such flag and exit with status 1,
    before any die is looked at and even when help is asked for. *)
Theorem DiceOdds_rejects_unknown_flag (known rest : list string) (flag : string) :
  flags_of (arguments sys_argv args) = known ++ flag :: rest →
  Forall (λ flag, flag ∈ flag_args) known →
  flag ∉ flag_args →
  DiceOdds randbelow sys_argv args
  = ([Text ("Invalid flag: " +:+ flag)], Raise (SystemExit 1)).
Proof.
  intros Hflags Hknown Hflag.
  rewrite DiceOdds_with_arguments.
  - rewrite Hflags.
    unfold process_flags at 1.
    by rewrite (process_flags_loop_unknown known rest flag Hknown Hflag).
  - apply flags_of_nonempty. rewrite Hflags. by destruct known.
Qed.

(** X5.  With known flags that ask for help, or for no action at all,
    [DiceOdds] prints the help and returns normally: the dice are not
    looked at, so a missing or malformed die is not reported. *)
Theorem DiceOdds_help_comes_first :
  arguments sys_argv args ≠ [] →
  Forall (λ flag, flag ∈ flag_args) (flags_of (arguments sys_argv args)) →
  asks_help (flags_of (arguments sys_argv args)) →
  DiceOdds randbelow sys_argv args = (help_text, Ok tt).
Proof.
  intros Hne Hknown Hhelp. rewrite DiceOdds_with_arguments by done.
  rewrite (process_flags_asks_help _ Hknown Hhelp). reflexivity.
Qed.

(** X6.  With known flags that ask for an action and not for help, and
    no die among the arguments, [DiceOdds] prints "Error: No dice
    specified." and exits with status 1. *)
Theorem DiceOdds_without_dice :
  Forall (λ flag, flag ∈ flag_args) (flags_of (arguments sys_argv args)) →
  ¬ asks_help (flags_of (arguments sys_argv args)) →
  dice_of (arguments sys_argv args) = [] →
  DiceOdds randbelow sys_argv args
  = ([Text "Error: No dice specified."], Raise (SystemExit 1)).
Proof.
  intros Hknown Hhelp Hdice.
  destruct (process_flags_asks_actions _ Hknown Hhelp) as (sp & so & sg & dr & Hflags).
  rewrite DiceOdds_with_arguments.
  - rewrite Hflags, io_bind_ret_l, Hdice. reflexivity.
  - intros Hnil. apply Hhelp. rewrite Hnil. unfold asks_help, asks_action, flags_of.
    rewrite filter_nil, !elem_of_nil. tauto.
Qed.


End DiceOdds_endings.

Lemma DiceOdds_rejects_unknown_flag_z :
  DiceOdds (λ _, 0%nat) [] (Some ["d6"; "-z"; "-h"])
  = ([Text ("Invalid flag: " +:+ "-z")], Raise (SystemExit 1)).
Proof.
  apply (DiceOdds_rejects_unknown_flag (λ _, 0%nat) [] (Some ["d6"; "-z"; "-h"])
           [] ["-h"] "-z"); [reflexivity|constructor|by_evaluation].
Defined.

Lemma DiceOdds_help_comes_first_bad_die :
  DiceOdds (λ _, 0%nat) [] (Some ["dxyz"; "-h"; "-p"]) = (help_text, Ok tt).
Proof.
  apply (DiceOdds_help_comes_first (λ _, 0%nat) [] (Some ["dxyz"; "-h"; "-p"])).
  - done.
  - by_evaluation.
  - left. by_evaluation.
Defined.

Lemma DiceOdds_without_dice_p :
  DiceOdds (λ _, 0%nat) [] (Some ["-p"])
  = ([Text "Error: No dice specified."], Raise (SystemExit 1)).
Proof.
  apply (DiceOdds_without_dice (λ _, 0%nat) [] (Some ["-p"])).
  - by_evaluation.
  - intros H. apply asks_help_decide in H. by vm_compute in H.
  - reflexivity.
Defined.


Lemma Forall_or_first_failure {A} (P : A → Prop) `{!∀ x, Decision (P x)} (l : list A) :
  Forall P l ∨ ∃ good x rest, l = good ++ x :: rest ∧ Forall P good ∧ ¬ P x.
Proof.
  induction l as [|y l IH]; [by left|].
  destruct (decide (P y)) as [Hy|Hy].
  - destruct IH as [Hl|(good & x & rest & -> & Hgood & Hx)].
    + left. by constructor.
    + right. exists (y :: good), x, rest. split_and!; [done|by constructor|done].
  - right. by exists [], y, l.
Qed.

Lemma valid_invocation_intro (args : list string) (faces : list Z) :
  Forall (λ flag, flag ∈ flag_args) (flags_of args) →
  ¬ asks_help (flags_of args) →
  dice_of args ≠ [] →
  mapM parse_die (dice_of args) = Ok faces →
  ∃ show_prob show_occurrences show_graph do_roll,
    valid_invocation args faces show_prob show_occurrences show_graph do_roll.
Proof.
  intros Hknown Hhelp Hdice Hfaces.
  destruct (process_flags_asks_actions _ Hknown Hhelp) as (sp & so & sg & dr & Hflags).
  exists sp, so, sg, dr, (dice_of args), (flags_of args).
  split_and!; [apply parse_args_returns|done|done|done].
Qed.

Section DiceOdds_always_ends.
Variable randbelow : nat → nat.
Variable sys_argv : list string.
Variable args : option (list string).
Hypothesis randbelow_below : ∀ n, (0 < n)%nat → (randbelow n < n)%nat.


End DiceOdds_always_ends.


(** ** What [DiceOdds] displays *)


Section DiceOdds_display.
Variable randbelow : nat → nat.
Variable sys_argv : list string.
Variable args : option (list string).


End DiceOdds_display.


(** ** Where the flags stand among the dice *)

Lemma filters_empty (args : list string) : dice_of args = [] → flags_of args = [] → args = [].
Proof.
  destruct args as [|arg args]; [done|]. unfold dice_of, flags_of.
  rewrite !filter_cons. destruct (startswith arg "-"); repeat case_decide; try done; tauto.
Qed.

(** X10.  [DiceOdds] depends on its arguments only through the dice in
    their order and the flags in their order: moving flags before,
    between or after the dice changes nothing. *)
Theorem DiceOdds_flags_anywhere (randbelow : nat → nat) (sys_argv args args' : list string) :
  dice_of args = dice_of args' →
  flags_of args = flags_of args' →
  DiceOdds randbelow sys_argv (Some args') = DiceOdds randbelow sys_argv (Some args).
Proof.
  intros Hdice Hflags.
  destruct (decide (args = [])) as [->|Hne].
  - by rewrite (filters_empty args') by done.
  - assert (args' ≠ []) as Hne'.
    { intros ->. apply Hne. by apply filters_empty. }
    rewrite !DiceOdds_with_arguments by done. cbn [arguments].
    by rewrite Hdice, Hflags.
Qed.

Lemma DiceOdds_flags_anywhere_p_d6 :
  DiceOdds (λ _, 0%nat) [] (Some ["-p"; "d6"; "-r"; "d8"])
  = DiceOdds (λ _, 0%nat) [] (Some ["d6"; "d8"; "-p"; "-r"]).
Proof.
  by apply (DiceOdds_flags_anywhere (λ _, 0%nat) []
              ["d6"; "d8"; "-p"; "-r"] ["-p"; "d6"; "-r"; "d8"]).
Defined.

(** ** Dice without faces, and no dice *)

Lemma generate_all_rolls_empty (faces : list Z) :
  generate_all_rolls faces = [] ↔ Exists (λ F, F < 1) faces.
Proof.
  split.
  - intros Hnil. destruct (Forall_or_first_failure (λ F, 1 ≤ F) faces)
      as [Hall|(good & F & rest & -> & _ & HF)].
    + by destruct (generate_all_rolls_nonempty faces Hall).
    + apply Exists_app. right. apply Exists_cons_hd. lia.
  - intros Hex. destruct (generate_all_rolls faces) as [|roll rolls] eqn:Hrolls; [done|].
    assert (outcome faces roll) as Hroll.
    { apply elem_of_generate_all_rolls. rewrite Hrolls. left. }
    exfalso. clear Hrolls. induction Hroll as [|F v faces roll Hv _ IH].
    + by apply Exists_nil in Hex.
    + apply Exists_cons in Hex as [HF|Hex]; [lia|by apply IH].
Qed.

Lemma length_generate_all_rolls_any (faces : list Z) :
  Z.of_nat (length (generate_all_rolls faces))
  = foldr (λ F acc, Z.max 0 F * acc) 1 faces.
Proof.
  rewrite generate_all_rolls_cartesian, length_cartesian.
  induction faces as [|F faces IH]; [done|]. cbn [fmap list_fmap foldr].
  rewrite Nat2Z.inj_mul, IH. unfold range. rewrite length_seqZ. f_equal. lia.
Qed.

Lemma StronglySorted_lex_NoDup (rolls : list (list Z)) :
  StronglySorted lex_lt rolls → NoDup rolls.
Proof.
  assert (∀ roll, ¬ lex_lt roll roll) as Hirrefl.
  { induction roll as [|x roll IH]; simpl; [tauto|]. intros [?|[_ ?]]; [lia|done]. }
  induction 1 as [|roll rolls _ IH Hall]; constructor; [|done].
  intros Hin. rewrite Forall_forall in Hall. by apply (Hirrefl roll), Hall.
Qed.

(** X11.  For any list of face counts, [generate_all_rolls] returns
    the rolls without repetition, as many as the product of the face
    counts with a count below 1 taken as 0: there is no roll at all
    exactly when some die has no face, and with no die there is the
    empty roll alone. *)
Theorem generate_all_rolls_edge_cases (faces : list Z) :
  NoDup (generate_all_rolls faces)
  ∧ Z.of_nat (length (generate_all_rolls faces))
    = foldr (λ F acc, Z.max 0 F * acc) 1 faces
  ∧ (generate_all_rolls faces = [] ↔ Exists (λ F, F < 1) faces)
  ∧ (faces = [] → generate_all_rolls faces = [[]]).
Proof.
  split_and!.
  - apply StronglySorted_lex_NoDup, generate_all_rolls_sorted.
  - apply length_generate_all_rolls_any.
  - apply generate_all_rolls_empty.
  - by intros ->.
Qed.

Lemma process_dice_without_rolls (faces : list Z) :
  generate_all_rolls faces = [] →
  process_dice faces = Raise (ValueError "max() arg is an empty sequence").
Proof.
  intros Hnil. unfold process_dice. rewrite Hnil.
  change (Counter (sum <$> [])) with (∅ : gmap Z Z).
  unfold values. by rewrite map_to_list_empty.
Qed.

(** X12.  [process_dice] returns exactly when every face count is at
    least 1, then with the product of the face counts as its total,
    for an empty list too; a die without a face makes it raise the
    [ValueError] of [max] on an empty sequence. *)
Theorem process_dice_returns_or_raises (faces : list Z) :
  (Forall (λ F, 1 ≤ F) faces
   ∧ ∃ table, process_dice faces = Ok (table, prod_faces faces))
  ∨ (Exists (λ F, F < 1) faces
     ∧ process_dice faces = Raise (ValueError "max() arg is an empty sequence")).
Proof.
  destruct (Forall_or_first_failure (λ F, 1 ≤ F) faces)
    as [Hall|(good & F & rest & -> & _ & HF)].
  - left. split; [done|].
    destruct (process_dice_returns faces) as (m & _ & Hret);
      [by apply generate_all_rolls_nonempty|].
    rewrite length_generate_all_rolls in Hret; [by eexists|].
    eapply Forall_impl; [done|]. simpl. lia.
  - assert (Exists (λ F, F < 1) (good ++ F :: rest)) as Hex.
    { apply Exists_app. right. apply Exists_cons_hd. lia. }
    right. split; [done|].
    by apply process_dice_without_rolls, generate_all_rolls_empty.
Qed.

(** ** The rows of the table *)

Lemma fold_left_max (l : list Z) (x : Z) :
  fold_left Z.max l x ∈ x :: l
  ∧ x ≤ fold_left Z.max l x
  ∧ Forall (λ y, y ≤ fold_left Z.max l x) l.
Proof.
  revert x. induction l as [|y l IH]; intros x; cbn [fold_left].
  - split_and!; [left|lia|constructor].
  - destruct (IH (Z.max x y)) as (Hin & Hle & Hall). split_and!.
    + apply elem_of_cons in Hin as [->|Hin]; [|by right; right].
      destruct (Z.max_spec x y) as [[_ ->]|[_ ->]]; [right; left|left].
    + lia.
    + constructor; [lia|done].
Qed.

Lemma max_largest (l : list Z) (m : Z) :
  max l = Ok m → m ∈ l ∧ Forall (λ y, y ≤ m) l.
Proof.
  destruct l as [|x l]; [done|]. intros [= <-].
  destruct (fold_left_max l x) as (Hin & Hle & Hall). split; [done|by constructor].
Qed.

Lemma occurrences_fmap {A} (f : A → Z) (k : Z) (l : list A) :
  occurrences k (f <$> l) = Z.of_nat (length (filter (λ x, f x = k) l)).
Proof.
  unfold occurrences. f_equal. induction l as [|x l IH]; [done|].
  cbn [fmap list_fmap]. rewrite !filter_cons.
  destruct (decide (f x = k)); simpl; by rewrite IH.
Qed.

Lemma occurrences_le_length (k : Z) (l : list Z) : occurrences k l ≤ Z.of_nat (length l).
Proof. unfold occurrences. pose proof (length_filter (λ x, x = k) l). lia. Qed.

(** The table of [process_dice], with the largest count it scales the
    graph by. *)
Lemma process_dice_table (faces : list Z) :
  Forall (λ F, 1 ≤ F) faces →
  ∃ M,
    max (values (Counter (all_sums faces))) = Ok M
    ∧ process_dice faces
      = Ok (table_of (Counter (all_sums faces)) (prod_faces faces) M, prod_faces faces).
Proof.
  intros Hfaces.
  destruct (process_dice_returns faces) as (M & HM & Hret);
    [by apply generate_all_rolls_nonempty|].
  rewrite length_generate_all_rolls in Hret; [by exists M|].
  eapply Forall_impl; [done|]. simpl. lia.
Qed.

Lemma elem_of_table_of_inv (c : gmap Z Z) (T M : Z) (row : Row) :
  row ∈ table_of c T M →
  Sum row ∈ keys c
  ∧ row = mkRow (Sum row) (int_truediv (counter_get c (Sum row)) T)
                (counter_get c (Sum row))
                (get_graph_line (counter_get c (Sum row)) M).
Proof.
  unfold table_of. intros Hrow.
  apply list_elem_of_fmap in Hrow as (k & -> & Hk). split; [|done].
  simpl. by apply elem_of_sorted.
Qed.

(** X13.  The count of a row of the table is the number of rolls of
    the dice whose sum is the sum of the row. *)
Theorem process_dice_counts_the_rolls (faces : list Z) :
  Forall (λ F, 1 ≤ F) faces →
  ∃ table,
    process_dice faces = Ok (table, prod_faces faces)
    ∧ ∀ row, row ∈ table →
        Occurrences row
        = Z.of_nat (length (filter (λ roll, total roll = Sum row)
                                   (generate_all_rolls faces))).
Proof.
  intros Hfaces. destruct (process_dice_table faces Hfaces) as (M & _ & Hret).
  eexists. split; [exact Hret|]. intros row Hrow.
  apply elem_of_table_of_inv in Hrow as [_ ->]. cbn [Occurrences Sum].
  rewrite counter_get_Counter. unfold all_sums. rewrite occurrences_fmap.
  do 2 f_equal. apply list_filter_iff. intros roll. by rewrite sum_total.
Qed.

Lemma process_dice_counts_the_rolls_d6_d6 :
  ∃ table,
    process_dice [6; 6] = Ok (table, prod_faces [6; 6])
    ∧ ∀ row, row ∈ table →
        Occurrences row
        = Z.of_nat (length (filter (λ roll, total roll = Sum row)
                                   (generate_all_rolls [6; 6]))).
Proof. apply (process_dice_counts_the_rolls [6; 6]). by_evaluation. Defined.

(** X14.  Every row of the table is made from its count alone: the
    probability is the count divided by the total, and the graph is
    [get_graph_line] of the count and of the largest count of the
    table.  The counts lie between 1 and that largest count, which some
    row attains and which is at most the total; when it is at most 50
    each bar is as long as its count. *)
Theorem process_dice_rows_from_counts (faces : list Z) :
  Forall (λ F, 1 ≤ F) faces →
  ∃ table M,
    process_dice faces = Ok (table, prod_faces faces)
    ∧ (∃ row, row ∈ table ∧ Occurrences row = M)
    ∧ M ≤ prod_faces faces
    ∧ ∀ row, row ∈ table →
        1 ≤ Occurrences row ≤ M
        ∧ Probability row = int_truediv (Occurrences row) (prod_faces faces)
        ∧ Graph row = get_graph_line (Occurrences row) M
        ∧ (M ≤ 50 → String.length (Graph row) = Z.to_nat (Occurrences row)).
Proof.
  intros Hfaces. destruct (process_dice_table faces Hfaces) as (M & HM & Hret).
  exists (table_of (Counter (all_sums faces)) (prod_faces faces) M), M.
  apply max_largest in HM as [HMin HMall]. rewrite values_keys in HMin, HMall.
  apply list_elem_of_fmap in HMin as (k & HMk & Hk).
  split; [done|]. split_and!.
  - exists (mkRow k (int_truediv (counter_get (Counter (all_sums faces)) k) (prod_faces faces))
                  (counter_get (Counter (all_sums faces)) k)
                  (get_graph_line (counter_get (Counter (all_sums faces)) k) M)).
    split; [|done]. unfold table_of. apply list_elem_of_fmap. exists k.
    split; [done|]. by apply elem_of_sorted.
  - rewrite HMk, counter_get_Counter.
    rewrite <- (length_generate_all_rolls faces)
      by (eapply Forall_impl; [done|]; simpl; lia).
    rewrite <- (length_fmap sum). apply occurrences_le_length.
  - intros row Hrow. apply elem_of_table_of_inv in Hrow as [Hkey Hrow].
    rewrite Hrow. cbn [Occurrences Probability Graph Sum].
    assert (1 ≤ counter_get (Counter (all_sums faces)) (Sum row) ≤ M) as Hcount.
    { split.
      - rewrite counter_get_Counter.
        apply (proj1 (elem_of_keys_Counter _ _)) in Hkey.
        apply occurrences_pos in Hkey. lia.
      - rewrite Forall_forall in HMall. apply HMall, list_elem_of_fmap. by eexists. }
    split_and!; [lia|lia|done|done|].
    intros HM50. unfold get_graph_line.
    destruct (Z.ltb_spec 50 M); [lia|]. apply length_str_mul_glyph.
Qed.

Lemma process_dice_rows_from_counts_d6_d6 :
  ∃ table M,
    process_dice [6; 6] = Ok (table, prod_faces [6; 6])
    ∧ (∃ row, row ∈ table ∧ Occurrences row = M)
    ∧ M ≤ prod_faces [6; 6]
    ∧ ∀ row, row ∈ table →
        1 ≤ Occurrences row ≤ M
        ∧ Probability row = int_truediv (Occurrences row) (prod_faces [6; 6])
        ∧ Graph row = get_graph_line (Occurrences row) M
        ∧ (M ≤ 50 → String.length (Graph row) = Z.to_nat (Occurrences row)).
Proof. apply (process_dice_rows_from_counts [6; 6]). by_evaluation. Defined.

(** ** The shape of the distribution *)

Lemma occurrences_app (k : Z) (l1 l2 : list Z) :
  occurrences k (l1 ++ l2) = occurrences k l1 + occurrences k l2.
Proof. unfold occurrences. rewrite filter_app, length_app. lia. Qed.

Lemma occurrences_shift (a k : Z) (l : list Z) :
  occurrences (a + k) (Z.add a <$> l) = occurrences k l.
Proof.
  rewrite occurrences_fmap. unfold occurrences. do 2 f_equal.
  apply list_filter_iff. intros x. lia.
Qed.

Lemma occurrences_reflect (c k : Z) (l : list Z) :
  occurrences k ((λ s, c - s) <$> l) = occurrences (c - k) l.
Proof.
  rewrite occurrences_fmap. unfold occurrences. do 2 f_equal.
  apply list_filter_iff. intros x. lia.
Qed.

(** A range read backwards is the same range. *)
Lemma range_reflect (F : Z) :
  (λ v, F + 1 - v) <$> range 1 (F + 1) ≡ₚ range 1 (F + 1).
Proof.
  apply NoDup_Permutation.
  - apply NoDup_fmap_2; [intros x y; lia|]. apply NoDup_seqZ.
  - apply NoDup_seqZ.
  - intros w. rewrite list_elem_of_fmap, elem_of_range. split.
    + intros (v & -> & Hv%elem_of_range). lia.
    + intros Hw. exists (F + 1 - w). split; [lia|]. apply elem_of_range. lia.
Qed.

(** The sums of all rolls, each replaced by its mirror image, are the
    same sums in another order. *)
Lemma all_sums_reflect (faces : list Z) :
  (λ s, n_dice faces + sum_faces faces - s) <$> all_sums faces ≡ₚ all_sums faces.
Proof.
  induction faces as [|F faces IH]; [done|].
  rewrite all_sums_cons, fmap_list_bind.
  transitivity (v ← range 1 (F + 1);
                Z.add (F + 1 - v) <$>
                  ((λ s, n_dice faces + sum_faces faces - s) <$> all_sums faces)).
  { apply list_bind_Permutation_ext. intros v. rewrite <- !list_fmap_compose.
    erewrite list_fmap_ext; [done|]. intros i s _. unfold n_dice, sum_faces. simpl.
    rewrite Nat2Z.inj_succ. simpl. lia. }
  transitivity (v ← range 1 (F + 1); Z.add (F + 1 - v) <$> all_sums faces).
  { apply list_bind_Permutation_ext. intros v. by rewrite IH. }
  assert ((v ← range 1 (F + 1); Z.add (F + 1 - v) <$> all_sums faces)
          = ((λ v, F + 1 - v) <$> range 1 (F + 1)) ≫= (λ w, Z.add w <$> all_sums faces))
    as -> by by rewrite list_fmap_bind.
  by rewrite range_reflect.
Qed.

Lemma occurrences_all_sums_reflect (faces : list Z) (k : Z) :
  occurrences (n_dice faces + sum_faces faces - k) (all_sums faces)
  = occurrences k (all_sums faces).
Proof.
  rewrite <- occurrences_reflect.
  apply occurrences_Permutation, all_sums_reflect.
Qed.

Lemma all_sums_at_least (faces : list Z) (s : Z) :
  s ∈ all_sums faces → n_dice faces ≤ s ≤ sum_faces faces.
Proof.
  intros (roll & Hroll & <-)%elem_of_all_sums. by apply outcome_total_bounds.
Qed.

(** Only the roll of all ones has the smallest sum. *)
Lemma occurrences_smallest_sum (faces : list Z) :
  Forall (λ F, 1 ≤ F) faces → occurrences (n_dice faces) (all_sums faces) = 1.
Proof.
  induction 1 as [|F faces HF _ IH]; [done|].
  rewrite all_sums_cons. unfold range.
  rewrite seqZ_cons by lia. rewrite bind_cons, occurrences_app.
  replace (n_dice (F :: faces)) with (1 + n_dice faces)
    by (unfold n_dice; simpl length; lia).
  rewrite occurrences_shift, IH.
  rewrite occurrences_not_elem; [done|].
  intros (v & Hs & Hv)%list_elem_of_bind.
  apply list_elem_of_fmap in Hs as (s & Hs & Hin).
  apply elem_of_seqZ in Hv. apply all_sums_at_least in Hin. lia.
Qed.

Section distribution.
Variable faces : list Z.
Hypothesis faces_valid : Forall (λ F, 1 ≤ F) faces.

(** X15.  The table is symmetric: two rows whose sums add up to the
    number of dice plus the sum of the face counts, that is the
    smallest and the largest sum together, have the same count. *)
Theorem process_dice_counts_symmetric :
  ∃ table,
    process_dice faces = Ok (table, prod_faces faces)
    ∧ ∀ row row', row ∈ table → row' ∈ table →
        Sum row + Sum row' = n_dice faces + sum_faces faces →
        Occurrences row = Occurrences row'.
Proof.
  destruct (process_dice_table faces faces_valid) as (M & _ & Hret).
  eexists. split; [exact Hret|]. intros row row' Hrow Hrow' Hsum.
  apply elem_of_table_of_inv in Hrow as [_ ->].
  apply elem_of_table_of_inv in Hrow' as [_ ->]. cbn [Occurrences Sum] in *.
  rewrite !counter_get_Counter, <- (occurrences_all_sums_reflect faces (Sum row')).
  f_equal. lia.
Qed.

(** X16.  The smallest sum, one per die, and the largest sum, all the
    face counts together, are each reached by exactly one roll: their
    rows have count 1. *)
Theorem process_dice_extreme_sums_once :
  ∃ table,
    process_dice faces = Ok (table, prod_faces faces)
    ∧ ∀ row, row ∈ table →
        Sum row = n_dice faces ∨ Sum row = sum_faces faces →
        Occurrences row = 1.
Proof.
  destruct (process_dice_table faces faces_valid) as (M & _ & Hret).
  eexists. split; [exact Hret|]. intros row Hrow Hsum.
  apply elem_of_table_of_inv in Hrow as [_ ->]. cbn [Occurrences Sum] in *.
  rewrite counter_get_Counter. destruct Hsum as [-> | ->].
  - by apply occurrences_smallest_sum.
  - rewrite <- occurrences_all_sums_reflect.
    replace (n_dice faces + sum_faces faces - sum_faces faces) with (n_dice faces) by lia.
    by apply occurrences_smallest_sum.
Qed.

End distribution.

Lemma process_dice_counts_symmetric_d6_d8 :
  ∃ table,
    process_dice [6; 8] = Ok (table, prod_faces [6; 8])
    ∧ ∀ row row', row ∈ table → row' ∈ table →
        Sum row + Sum row' = n_dice [6; 8] + sum_faces [6; 8] →
        Occurrences row = Occurrences row'.
Proof. apply (process_dice_counts_symmetric [6; 8]). by_evaluation. Defined.

Lemma process_dice_extreme_sums_once_d6_d8 :
  ∃ table,
    process_dice [6; 8] = Ok (table, prod_faces [6; 8])
    ∧ ∀ row, row ∈ table →
        Sum row = n_dice [6; 8] ∨ Sum row = sum_faces [6; 8] →
        Occurrences row = 1.
Proof. apply (process_dice_extreme_sums_once [6; 8]). by_evaluation. Defined.

(** ** A single die *)

Lemma StronglySorted_le_lt_NoDup (l : list Z) : StronglySorted Z.lt l → NoDup l.
Proof.
  induction 1 as [|x l _ IH Hx]; constructor; [|done].
  intros Hin. rewrite Forall_forall in Hx. specialize (Hx x Hin). lia.
Qed.

Lemma occurrences_NoDup (k : Z) (l : list Z) : NoDup l → k ∈ l → occurrences k l = 1.
Proof.
  induction 1 as [|x l Hx _ IH]; intros Hk; [by apply not_elem_of_nil in Hk|].
  rewrite occurrences_cons. destruct (decide (x = k)) as [->|Hne].
  - by rewrite occurrences_not_elem.
  - apply elem_of_cons in Hk as [->|Hk]; [done|]. by rewrite IH.
Qed.

Lemma all_sums_single (F : Z) : all_sums [F] = seqZ 1 F.
Proof.
  rewrite all_sums_cons. change (all_sums []) with [0].
  erewrite list_bind_ext; [apply list_bind_ret| |].
  - intros v. cbn. f_equal. lia.
  - unfold range. f_equal. lia.
Qed.

Lemma sorted_keys_Counter_sorted (l : list Z) :
  StronglySorted Z.lt l → sorted (keys (Counter l)) = l.
Proof.
  intros Hl. apply (StronglySorted_unique Z.le).
  - apply sorted_le.
  - by apply StronglySorted_lt_le.
  - rewrite sorted_Permutation. apply NoDup_Permutation.
    + apply NoDup_keys.
    + by apply StronglySorted_le_lt_NoDup.
    + intros k. apply elem_of_keys_Counter.
Qed.

(** X17.  A single die with F faces gives the uniform table: the sums
    1 to F in order, each with count 1, probability 1/F and a bar of
    one glyph, and the total F. *)
Theorem process_dice_single_die (F : Z) :
  1 ≤ F →
  process_dice [F] = Ok ((λ s, mkRow s (int_truediv 1 F) 1 "=") <$> seqZ 1 F, F).
Proof.
  intros HF.
  destruct (process_dice_table [F]) as (M & HM & ->); [by repeat constructor|].
  replace (prod_faces [F]) with F by (unfold prod_faces; simpl; lia).
  rewrite all_sums_single in *.
  assert (∀ k, k ∈ seqZ 1 F → counter_get (Counter (seqZ 1 F)) k = 1) as Hone.
  { intros k Hk. rewrite counter_get_Counter.
    by apply occurrences_NoDup; [apply NoDup_seqZ|]. }
  assert (M = 1) as ->.
  { apply max_largest in HM as [HM _]. rewrite values_keys in HM.
    apply list_elem_of_fmap in HM as (k & -> & Hk).
    by apply Hone, elem_of_keys_Counter. }
  unfold table_of. rewrite sorted_keys_Counter_sorted by apply seqZ_sorted.
  do 2 f_equal. apply list_fmap_ext. intros i k Hk.
  apply list_elem_of_lookup_2 in Hk. by rewrite (Hone k Hk).
Qed.

Lemma process_dice_single_die_d6 :
  process_dice [6] = Ok ((λ s, mkRow s (int_truediv 1 6) 1 "=") <$> seqZ 1 6, 6).
Proof. apply (process_dice_single_die 6). lia. Defined.

(** ** Writing a die and reading it back *)

Lemma code_points_ascii (a : ascii) (s : string) :
  byte a < 0x80 → code_points (String a s) = byte a :: code_points s.
Proof.
  intros Ha. unfold code_points. cbn [code_points_skip utf8_head].
  by destruct (Z.ltb_spec (byte a) 0x80); [|lia].
Qed.

Lemma digits_string_of_uint (d : Decimal.uint) :
  Forall decimal_digit (code_points (NilEmpty.string_of_uint d)).
Proof.
  induction d; cbn [NilEmpty.string_of_uint]; [constructor|..];
    (rewrite code_points_ascii by by vm_compute);
    (constructor; [vm_compute; by eexists|done]).
Qed.

Lemma int_of_digits_from_uint (d : Decimal.uint) (acc : positive) :
  int_of_digits_from (Z.pos acc) (code_points (NilEmpty.string_of_uint d))
  = Z.pos (Pos.of_uint_acc d acc).
Proof.
  revert acc. induction d as [|d IH|d IH|d IH|d IH|d IH|d IH|d IH|d IH|d IH|d IH];
    intros acc; [done|..];
    cbn [NilEmpty.string_of_uint Pos.of_uint_acc];
    (rewrite code_points_ascii by by vm_compute);
    cbn [int_of_digits_from];
    rewrite <- IH; f_equal; vm_compute (default 0 (decimal _)); lia.
Qed.

Lemma int_string_of_uint (d : Decimal.uint) :
  int_of_digits_from 0 (code_points (NilEmpty.string_of_uint d)) = Z.of_N (Pos.of_uint d).
Proof.
  induction d as [|d IH|d IH|d IH|d IH|d IH|d IH|d IH|d IH|d IH|d IH];
    [done|..];
    cbn [NilEmpty.string_of_uint Pos.of_uint];
    (rewrite code_points_ascii by by vm_compute);
    cbn [int_of_digits_from];
    vm_compute (10 * 0 + default 0 (decimal _));
    [exact IH|apply int_of_digits_from_uint..].
Qed.

(** The decimal writing of a positive number does not start with a
    zero. *)
Lemma to_uint_leading (p : positive) (d : Decimal.uint) : Pos.to_uint p ≠ Decimal.D0 d.
Proof.
  intros Hp.
  assert (Pos.to_uint p = Decimal.unorm (Pos.to_uint p)) as Hnorm.
  { rewrite <- (DecimalPos.Unsigned.to_of (Pos.to_uint p)).
    by rewrite DecimalPos.Unsigned.of_to. }
  rewrite Hp in Hnorm. change (Decimal.unorm (Decimal.D0 d)) with (Decimal.unorm d) in Hnorm.
  assert (d = Decimal.Nil ∨ d ≠ Decimal.Nil) as [->|Hd]
    by (destruct d; (by left) || (by right)).
  - by apply (DecimalPos.Unsigned.to_uint_nonzero p).
  - pose proof (DecimalFacts.nb_digits_unorm d Hd) as Hle.
    rewrite <- Hnorm in Hle. simpl in Hle. lia.
Qed.

Lemma digit_value_nonneg (c : Z) : 0 ≤ digit_value c.
Proof.
  unfold digit_value. destruct (decimal c) as [v|] eqn:Hv; [|done].
  apply decimal_Some in Hv as (zero & _ & ? & ->). simpl. lia.
Qed.

Lemma decimal_value_nonneg (ds : list Z) : 0 ≤ decimal_value ds.
Proof.
  induction ds as [|c ds IH]; [done|]. cbn [decimal_value].
  pose proof (digit_value_nonneg c). nia.
Qed.

(** A number whose first digit is not zero is at least the power of
    ten of that digit's place. *)
Lemma decimal_value_leading (c : Z) (ds : list Z) :
  1 ≤ digit_value c → 10 ^ Z.of_nat (length ds) ≤ decimal_value (c :: ds).
Proof.
  intros Hc. cbn [decimal_value]. pose proof (decimal_value_nonneg ds).
  assert (0 < 10 ^ Z.of_nat (length ds)) by (apply Z.pow_pos_nonneg; lia). nia.
Qed.

(** [str] of a positive integer: its digits, the first of them not a
    zero, which denote the integer. *)
Lemma str_positive (N : Z) :
  1 ≤ N →
  ∃ c ds, code_points (str N) = c :: ds
          ∧ Forall decimal_digit (c :: ds)
          ∧ decimal_value (c :: ds) = N
          ∧ 1 ≤ digit_value c.
Proof.
  intros HN. destruct N as [|p|p]; try lia. unfold str.
  change (Z.to_int (Z.pos p)) with (Decimal.Pos (Pos.to_uint p)).
  cbn [NilZero.string_of_int]. unfold NilZero.string_of_uint.
  pose proof (DecimalPos.Unsigned.to_uint_nonnil p) as Hnil.
  pose proof (to_uint_leading p) as Hlead.
  pose proof (digits_string_of_uint (Pos.to_uint p)) as Hdigits.
  pose proof (int_string_of_uint (Pos.to_uint p)) as Hvalue.
  rewrite DecimalPos.Unsigned.of_to, <- decimal_value_horner in Hvalue.
  destruct (Pos.to_uint p) as [|d|d|d|d|d|d|d|d|d|d]; [done|by destruct (Hlead d)|..];
    cbn [NilEmpty.string_of_uint] in *;
    (rewrite code_points_ascii in * by by vm_compute);
    (eexists _, _; split_and!; [reflexivity|done|done|by vm_compute]).
Qed.

(** The decimal writing of a positive number below [10 ^ 4300] has
    4300 digits at most. *)
Lemma str_within_limit (N : Z) :
  1 ≤ N < 10 ^ 4300 → (length (code_points (str N)) ≤ 4300)%nat.
Proof.
  intros [HN Hlimit]. destruct (str_positive N HN) as (c & ds & -> & _ & Hvalue & Hc).
  pose proof (decimal_value_leading c ds Hc) as Hlead. rewrite Hvalue in Hlead.
  destruct (decide (length ds < 4300)%nat) as [Hlen|Hlen]; [simpl; lia|].
  assert (10 ^ 4300 ≤ 10 ^ Z.of_nat (length ds)) by (apply Z.pow_le_mono_r; lia).
  set (limit := 10 ^ 4300) in *. lia.
Qed.

(** X18.  Every face count N of at least 1 and below [10 ^ 4300],
    that is, of 4300 digits at most, has a token that [parse_die]
    reads back as N: the letter [d], in either case, followed by N in
    decimal. *)
Theorem parse_die_reads_back (N : Z) :
  1 ≤ N < 10 ^ 4300 →
  parse_die ("d" +:+ str N) = Ok N ∧ parse_die ("D" +:+ str N) = Ok N.
Proof.
  intros HN. pose proof (str_within_limit N HN) as Hlen.
  destruct (str_positive N (proj1 HN)) as (c & ds & Hstr & Hdigits & Hvalue & _).
  rewrite Hstr in Hlen.
  assert (∀ token, die_token token (c :: ds) → parse_die token = Ok N) as Hparse.
  { intros token Htoken.
    rewrite (parse_die_valid token (c :: ds) Htoken) by (done || lia). by rewrite Hvalue. }
  split; apply Hparse; (split_and!; [|done|done]).
  - left. change ("d" +:+ str N) with (String "d" (str N)).
    rewrite code_points_ascii by by vm_compute. by rewrite Hstr.
  - right. change ("D" +:+ str N) with (String "D" (str N)).
    rewrite code_points_ascii by by vm_compute. by rewrite Hstr.
Qed.

Lemma parse_die_reads_back_20 :
  parse_die ("d" +:+ str 20) = Ok 20 ∧ parse_die ("D" +:+ str 20) = Ok 20.
Proof. apply (parse_die_reads_back 20). split; [lia|by vm_compute]. Defined.

(** ** The width of a bar *)

Lemma graph_length_exact_bounds (c m : Z) :
  1 ≤ c ≤ m → 1 ≤ graph_length_exact c m ≤ 51.
Proof.
  intros Hc. unfold graph_length_exact. destruct (50 * c =? 29 * m); [lia|].
  assert (0 ≤ 50 * c / m) by (apply Z.div_pos; lia).
  assert (50 * c / m ≤ 50) by (apply Z.div_le_upper_bound; lia). lia.
Qed.

Lemma graph_length_exact_mono (c c' m : Z) :
  1 ≤ c ≤ c' → c' ≤ m → graph_length_exact c m ≤ graph_length_exact c' m.
Proof.
  intros Hc Hm. unfold graph_length_exact.
  destruct (Z.eqb_spec (50 * c) (29 * m)) as [He|Hne],
           (Z.eqb_spec (50 * c') (29 * m)) as [He'|Hne'].
  - lia.
  - assert (29 ≤ 50 * c' / m) by (apply Z.div_le_lower_bound; lia). lia.
  - assert (50 * c / m < 29) by (apply Z.div_lt_upper_bound; lia). lia.
  - assert (50 * c / m ≤ 50 * c' / m) by (apply Z.div_le_mono; lia). lia.
Qed.

(** X19.  For counts [1 <= c <= c' <= m] with the largest count [m] up
    to 200, the bar of [c] has between 1 and 51 glyphs and is not longer
    than the bar of [c']: a bar is never empty, never wider than 51, and
    bars grow with the counts. *)
Theorem get_graph_line_bounded_monotone (c c' m : Z) :
  1 ≤ c ≤ c' → c' ≤ m → m ≤ 200 →
  (1 ≤ String.length (get_graph_line c m) ≤ 51)%nat
  ∧ (String.length (get_graph_line c m) ≤ String.length (get_graph_line c' m))%nat.
Proof.
  intros Hc Hc' Hm. unfold get_graph_line.
  fold (graph_length c m). fold (graph_length c' m).
  destruct (Z.ltb_spec 50 m); rewrite !length_str_mul_glyph; [|lia].
  rewrite (graph_length_agrees_sound 200 c m graph_length_agrees_200) by lia.
  rewrite (graph_length_agrees_sound 200 c' m graph_length_agrees_200) by lia.
  pose proof (graph_length_exact_bounds c m). pose proof (graph_length_exact_bounds c' m).
  pose proof (graph_length_exact_mono c c' m). lia.
Qed.

Lemma get_graph_line_bounded_monotone_58_59_100 :
  (1 ≤ String.length (get_graph_line 58 100) ≤ 51)%nat
  ∧ (String.length (get_graph_line 58 100) ≤ String.length (get_graph_line 59 100))%nat.
Proof. apply (get_graph_line_bounded_monotone 58 59 100); lia. Defined.

(** ** The text of [print_graph] *)

Lemma chars_app (a b : string) :
  list_ascii_of_string (a +:+ b) = list_ascii_of_string a ++ list_ascii_of_string b.
Proof.
  induction a as [|x a IH]; [done|].
  change (x :: list_ascii_of_string (a +:+ b)
          = x :: (list_ascii_of_string a ++ list_ascii_of_string b)).
  by rewrite IH.
Qed.

Lemma has_newline_app (a b : string) :
  has_newline (a +:+ b) ↔ has_newline a ∨ has_newline b.
Proof. unfold has_newline. by rewrite chars_app, elem_of_app. Qed.

Lemma concat_empty_cons (x : string) (xs : list string) :
  String.concat "" (x :: xs) = x +:+ String.concat "" xs.
Proof. destruct xs; [by rewrite string_app_nil_r|done]. Qed.

Lemma str_mul_no_newline (s : string) (n : Z) : ¬ has_newline s → ¬ has_newline (str_mul s n).
Proof.
  intros Hs. unfold str_mul. induction (Z.to_nat n) as [|k IH].
  - intros H. by apply not_elem_of_nil in H.
  - cbn [replicate]. rewrite concat_empty_cons, has_newline_app. tauto.
Qed.

Lemma string_of_uint_no_newline (d : Decimal.uint) :
  ¬ has_newline (NilEmpty.string_of_uint d).
Proof.
  unfold has_newline.
  induction d; cbn [NilEmpty.string_of_uint list_ascii_of_string];
    [apply not_elem_of_nil|..]; rewrite not_elem_of_cons; by split.
Qed.

Lemma str_no_newline (n : Z) : ¬ has_newline (str n).
Proof.
  unfold str.
  assert (∀ d, ¬ has_newline (NilZero.string_of_uint d)) as Huint.
  { intros d. pose proof (string_of_uint_no_newline d) as Hd.
    destruct d; try exact Hd. unfold has_newline. cbn.
    rewrite not_elem_of_cons. split; [done|apply not_elem_of_nil]. }
  destruct (Z.to_int n) as [d|d]; cbn [NilZero.string_of_int]; [apply Huint|].
  unfold has_newline. cbn [list_ascii_of_string]. rewrite not_elem_of_cons.
  split; [done|apply Huint].
Qed.

Lemma get_graph_line_no_newline (c m : Z) : ¬ has_newline (get_graph_line c m).
Proof.
  unfold get_graph_line. destruct (50 <? m); apply str_mul_no_newline; by_evaluation.
Qed.

Lemma graph_heading_no_newline (max_sum : Z) : ¬ has_newline (graph_heading max_sum).
Proof.
  unfold graph_heading. rewrite !has_newline_app.
  pose proof (str_mul_no_newline " " (len (str max_sum) - 5)).
  assert (¬ has_newline "Sums ") by by_evaluation.
  assert (¬ has_newline "| Graph") by by_evaluation.
  assert (¬ has_newline " ") by by_evaluation. tauto.
Qed.

Lemma graph_row_no_newline (max_sum max_occurrences : Z) (row : Row) :
  ¬ has_newline (graph_row max_sum max_occurrences row).
Proof.
  unfold graph_row. rewrite !has_newline_app.
  pose proof (str_mul_no_newline " "
                (Z.max (len (str max_sum) - len (str (Sum row)))
                       (4 - len (str (Sum row))))).
  pose proof (str_no_newline (Sum row)). pose proof (str_no_newline (Occurrences row)).
  pose proof (get_graph_line_no_newline (Occurrences row) max_occurrences).
  assert (¬ has_newline " | ") by by_evaluation.
  assert (¬ has_newline " ") by by_evaluation. tauto.
Qed.

(** A loop that appends a separator and a piece per element joins the
    pieces. *)
Lemma fold_left_joins {A} (sep : string) (f : A → string) (l : list A) (start : string) :
  fold_left (λ text x, text +:+ sep +:+ f x) l start
  = String.concat sep (start :: (f <$> l)).
Proof.
  revert start. induction l as [|x l IH]; intros start; [done|].
  cbn [fold_left]. rewrite IH. cbn [fmap list_fmap String.concat].
  destruct (f <$> l) as [|y ys]; [done|]. by rewrite !string_app_assoc.
Qed.

(** X20.  On a frame without rows [print_graph] prints nothing and
    raises [ValueError].  On any other frame it prints one text and
    returns: the heading and then one line per row, in the order of the
    frame, joined by line breaks, none of them with a line break
    inside; a line shows the sum of its row, the bar for its count
    against the largest count of the frame, and the count. *)
Theorem print_graph_one_line_per_row (df : list Row) :
  (df = [] ∧ ∃ message, print_graph df = ([], Raise (ValueError message)))
  ∨ (df ≠ [] ∧
     ∃ max_sum max_occurrences,
       (max_sum ∈ Sum <$> df ∧ Forall (λ s, s ≤ max_sum) (Sum <$> df))
       ∧ (max_occurrences ∈ Occurrences <$> df
          ∧ Forall (λ c, c ≤ max_occurrences) (Occurrences <$> df))
       ∧ print_graph df
         = ([Text (String.concat newline
                     (graph_heading max_sum
                      :: (graph_row max_sum max_occurrences <$> df)))],
            Ok tt)
       ∧ Forall (λ line, ¬ has_newline line)
                (graph_heading max_sum :: (graph_row max_sum max_occurrences <$> df))).
Proof.
  destruct df as [|row df]; [left; split; [done|by eexists]|].
  right. split; [done|].
  exists (fold_left Z.max (Sum <$> df) (Sum row)),
         (fold_left Z.max (Occurrences <$> df) (Occurrences row)).
  destruct (fold_left_max (Sum <$> df) (Sum row)) as (Hs1 & Hs2 & Hs3).
  destruct (fold_left_max (Occurrences <$> df) (Occurrences row)) as (Ho1 & Ho2 & Ho3).
  split_and!; try done; try by constructor.
  - unfold print_graph. cbn [fmap list_fmap column_max]. unfold lift.
    rewrite !io_bind_ret_l. unfold print. do 3 f_equal.
    apply (fold_left_joins newline
             (graph_row (fold_left Z.max (Sum <$> df) (Sum row))
                        (fold_left Z.max (Occurrences <$> df) (Occurrences row)))
             (row :: df)).
  - constructor; [apply graph_heading_no_newline|].
    apply Forall_fmap, Forall_forall. intros r _. apply graph_row_no_newline.
Qed.

(** ** The random source *)

(** X21.  When neither [-r] nor [--roll] is among the arguments,
    [DiceOdds] does not consult the random source: what it prints and
    how it ends are the same for any two sources. *)
Theorem DiceOdds_random_only_for_roll (randbelow randbelow' : nat → nat)
    (sys_argv : list string) (args : option (list string)) :
  "-r" ∉ arguments sys_argv args →
  "--roll" ∉ arguments sys_argv args →
  DiceOdds randbelow' sys_argv args = DiceOdds randbelow sys_argv args.
Proof.
  intros Hr Hroll.
  destruct (decide (arguments sys_argv args = [])) as [Hnil|Hne].
  { unfold DiceOdds. fold (arguments sys_argv args).
    by rewrite !bool_decide_eq_true_2 by done. }
  rewrite !DiceOdds_with_arguments by done.
  destruct (Forall_or_first_failure (λ flag, flag ∈ flag_args)
              (flags_of (arguments sys_argv args)))
    as [Hknown|(known & flag & rest & Hflags & Hknown & Hflag)].
  2:{ rewrite Hflags. unfold process_flags.
      by rewrite (process_flags_loop_unknown known rest flag Hknown Hflag). }
  rewrite (process_flags_known _ Hknown).
  assert (contains "-r" (flags_of (arguments sys_argv args))
          || contains "--roll" (flags_of (arguments sys_argv args)) = false) as ->.
  { apply orb_false_iff. split; apply contains_not_elem_of; unfold flags_of;
      rewrite list_elem_of_filter; tauto. }
  by destruct (contains "-h" _ || contains "--help" _ || _).
Qed.

Lemma DiceOdds_random_only_for_roll_d6_g :
  DiceOdds (λ n, pred n) [] (Some ["d6"; "-g"])
  = DiceOdds (λ _, 0%nat) [] (Some ["d6"; "-g"]).
Proof.
  apply (DiceOdds_random_only_for_roll (λ _, 0%nat) (λ n, pred n) [] (Some ["d6"; "-g"]));
    by_evaluation.
Defined.
